(** * Branch predictors of [branchPredictors.cpp]

    A shallow embedding of the three table-driven predictors (local, gshare
    and tournament) of [src/branchPredictors.cpp], together with the
    properties of their prediction and training functions. *)

From Stdlib Require Import ZArith Lia Bool List.
From stdpp Require Import base list.
From stdpp Require Import strings.
Import ListNotations.

Local Open Scope Z_scope.

(** ** Machine integers

    [int] is a 32-bit two's complement integer, [ADDRINT], [UINT64] and
    [size_t] are 64-bit unsigned integers.  Values are kept in [Z]; the
    conversions of the C++ code are written out. *)

Definition to_int (z : Z) : Z := (z + 2 ^ 31) mod 2 ^ 32 - 2 ^ 31.

Definition to_ADDRINT (z : Z) : Z := z mod 2 ^ 64.

Definition to_UINT64 (z : Z) : Z := z mod 2 ^ 64.

(** [int & ADDRINT], stored into an [int]: the [int] operand is converted to
    the unsigned type, the result is converted back. *)
Definition int_and_ADDRINT (i branchPC : Z) : Z :=
  to_int (Z.land (to_ADDRINT i) branchPC).

(** [(index << 1) + b] on [int]. *)
Definition shl1_add (index b : Z) : Z := to_int (to_int (Z.shiftl index 1) + b).

(** ** Exceptions

    The predictors can raise the [std::out_of_range] of [vector::at] and,
    while a constructor fills a table, the exception of a [push_back] that
    cannot grow the vector ([std::length_error] or [std::bad_alloc]);
    nothing catches them. *)

Inductive exn : Set := out_of_range | alloc_failure.

Inductive result (A : Type) : Type :=
| Ok (a : A)
| Throw (e : exn).
Arguments Ok {A} a.
Arguments Throw {A} e.

Definition bind {A B : Type} (r : result A) (k : A -> result B) : result B :=
  match r with
  | Ok a => k a
  | Throw e => Throw e
  end.

Notation "'do' x <- r ; k" := (bind r (fun x => k))
  (at level 10, x name, r at level 100, k at level 200).
Notation "'do' ' pat <- r ; k" := (bind r (fun x => match x with pat => k end))
  (at level 10, pat pattern, r at level 100, k at level 200).

(** ** [vector<int>] *)

(** [v.at(index)] for an [int] index: a negative index converts to a
    [size_t] beyond the size of any vector. *)
Definition at_ (v : list Z) (index : Z) : result Z :=
  if index <? 0 then Throw out_of_range
  else match v !! Z.to_nat index with
       | Some x => Ok x
       | None => Throw out_of_range
       end.

(** [v[index] ++] and [v[index] --], used only after [v.at(index)]
    returned. *)
Definition incr (v : list Z) (index : Z) : list Z :=
  match v !! Z.to_nat index with
  | Some x => <[Z.to_nat index := to_int (x + 1)]> v
  | None => v
  end.

Definition decr (v : list Z) (index : Z) : list Z :=
  match v !! Z.to_nat index with
  | Some x => <[Z.to_nat index := to_int (x - 1)]> v
  | None => v
  end.

(** The constructors' loop
    [for (UINT64 i = 0; i < numEntries; i ++) PHT.push_back(0b11);]
    with [n] iterations left. *)
Fixpoint push_back_loop (n : nat) (PHT : list Z) : list Z :=
  match n with
  | O => PHT
  | S k => push_back_loop k (PHT ++ [3])
  end.

(** A [vector<int>] cannot hold more [int]s than the 64-bit address space
    has room for ([SIZE_MAX / sizeof(int)]): a loop asked for more ends in
    the exception of [push_back].  Whether a smaller table fits in memory
    depends on the machine and is not modelled; nothing below is stated for
    more than 4096 entries. *)
Definition vector_int_limit : Z := (2 ^ 64 - 1) / 4.

Definition fill_PHT (numEntries : Z) : result (list Z) :=
  if numEntries <=? vector_int_limit
  then Ok (push_back_loop (Z.to_nat numEntries) [])
  else Throw alloc_failure.

(** [PHTsize] is assigned in three [if]s; for any other number of entries
    it keeps the indeterminate value [uninit] of the uninitialised member. *)
Definition init_PHTsize (uninit numEntries : Z) : Z :=
  let PHTsize := uninit in
  let PHTsize := if numEntries =? 4096 then 4095 else PHTsize in
  let PHTsize := if numEntries =? 1024 then 1023 else PHTsize in
  let PHTsize := if numEntries =? 128 then 127 else PHTsize in
  PHTsize.

(** ** The predictor interface *)

Module BP.

Class BranchPredictorInterface (T : Type) : Type := {
  getPrediction : T -> Z -> result (bool * T);
  train : T -> Z -> bool -> result T
}.

End BP.

(** ** Local predictor *)

Module Local.

Record LocalBranchPredictor : Type := mk {
  numEntries : Z;
  PHTsize : Z;
  LHR : list Z;
  PHT : list Z
}.

(** The argument is a [UINT64]. *)
Definition new (uninit numberOfEntries : Z) : result LocalBranchPredictor :=
  let numEntries := to_UINT64 numberOfEntries in
  let PHTsize := init_PHTsize uninit numEntries in
  do PHT <- fill_PHT numEntries;
  Ok {| numEntries := numEntries;
        PHTsize := PHTsize;
        LHR := replicate 128 0;
        PHT := PHT |}.

Definition getPrediction (p : LocalBranchPredictor) (branchPC : Z)
  : result (bool * LocalBranchPredictor) :=
  let LSB := int_and_ADDRINT 127 branchPC in
  let index := LHR p !!! Z.to_nat LSB in
  do c <- at_ (PHT p) index;
  if 2 <=? c then Ok (true, p) else Ok (false, p).

Definition train (p : LocalBranchPredictor) (branchPC : Z)
    (branchWasTaken : bool) : result LocalBranchPredictor :=
  let LSB := int_and_ADDRINT 127 branchPC in
  let index := LHR p !!! Z.to_nat LSB in
  if branchWasTaken then
    do c <- at_ (PHT p) index;
    let PHT' := if c <? 3 then incr (PHT p) index else PHT p in
    Ok {| numEntries := numEntries p;
          PHTsize := PHTsize p;
          LHR := <[Z.to_nat LSB := Z.land (shl1_add index 1) (PHTsize p)]> (LHR p);
          PHT := PHT' |}
  else
    do c <- at_ (PHT p) index;
    let PHT' := if 0 <? c then decr (PHT p) index else PHT p in
    Ok {| numEntries := numEntries p;
          PHTsize := PHTsize p;
          LHR := <[Z.to_nat LSB := Z.land (to_int (Z.shiftl index 1)) (PHTsize p)]> (LHR p);
          PHT := PHT' |}.

End Local.

#[export] Instance Local_BranchPredictorInterface
  : BP.BranchPredictorInterface Local.LocalBranchPredictor :=
  {| BP.getPrediction := Local.getPrediction; BP.train := Local.train |}.

(** ** Gshare predictor *)

Module Gshare.

Record GshareBranchPredictor : Type := mk {
  numEntries : Z;
  PHTsize : Z;
  GHR : Z;
  PHT : list Z
}.

(** The argument is a [UINT64]. *)
Definition new (uninit numberOfEntries : Z) : result GshareBranchPredictor :=
  let numEntries := to_UINT64 numberOfEntries in
  let PHTsize := init_PHTsize uninit numEntries in
  do PHT <- fill_PHT numEntries;
  Ok {| numEntries := numEntries;
        PHTsize := PHTsize;
        GHR := 0;
        PHT := PHT |}.

Definition getPrediction (p : GshareBranchPredictor) (branchPC : Z)
  : result (bool * GshareBranchPredictor) :=
  let LSB := int_and_ADDRINT (PHTsize p) branchPC in
  let index := Z.lxor LSB (GHR p) in
  do c <- at_ (PHT p) index;
  if 2 <=? c then Ok (true, p) else Ok (false, p).

Definition train (p : GshareBranchPredictor) (branchPC : Z)
    (branchWasTaken : bool) : result GshareBranchPredictor :=
  let LSB := int_and_ADDRINT (PHTsize p) branchPC in
  let index := Z.lxor LSB (GHR p) in
  if branchWasTaken then
    do c <- at_ (PHT p) index;
    let PHT' := if c <? 3 then incr (PHT p) index else PHT p in
    Ok {| numEntries := numEntries p;
          PHTsize := PHTsize p;
          GHR := Z.land (shl1_add index 1) (PHTsize p);
          PHT := PHT' |}
  else
    do c <- at_ (PHT p) index;
    let PHT' := if 0 <? c then decr (PHT p) index else PHT p in
    Ok {| numEntries := numEntries p;
          PHTsize := PHTsize p;
          GHR := Z.land (to_int (Z.shiftl index 1)) (PHTsize p);
          PHT := PHT' |}.

End Gshare.

#[export] Instance Gshare_BranchPredictorInterface
  : BP.BranchPredictorInterface Gshare.GshareBranchPredictor :=
  {| BP.getPrediction := Gshare.getPrediction; BP.train := Gshare.train |}.

(** ** Tournament predictor *)

Module Tournament.

Record TournamentBranchPredictor : Type := mk {
  numEntries : Z;
  gbranch : Gshare.GshareBranchPredictor;
  lbranch : Local.LocalBranchPredictor;
  PHTsize : Z;
  used : Z;
  PHT : list Z
}.

Definition set_gbranch g (t : TournamentBranchPredictor) :=
  mk (numEntries t) g (lbranch t) (PHTsize t) (used t) (PHT t).
Definition set_lbranch l (t : TournamentBranchPredictor) :=
  mk (numEntries t) (gbranch t) l (PHTsize t) (used t) (PHT t).
Definition set_used u (t : TournamentBranchPredictor) :=
  mk (numEntries t) (gbranch t) (lbranch t) (PHTsize t) u (PHT t).
Definition set_PHT v (t : TournamentBranchPredictor) :=
  mk (numEntries t) (gbranch t) (lbranch t) (PHTsize t) (used t) v.

(** The three uninitialised [PHTsize] members (the tournament's own and
    those of its two sub-predictors) are given separately. *)
Definition new (uninit uninit_l uninit_g numberOfEntries : Z)
  : result TournamentBranchPredictor :=
  let numEntries := to_UINT64 numberOfEntries in
  let PHTsize := init_PHTsize uninit numEntries in
  do PHT <- fill_PHT numEntries;
  do l <- Local.new uninit_l numEntries;
  do g <- Gshare.new uninit_g numEntries;
  Ok {| numEntries := numEntries; gbranch := g; lbranch := l;
        PHTsize := PHTsize; used := 2; PHT := PHT |}.

Definition getPrediction (t : TournamentBranchPredictor) (branchPC : Z)
  : result (bool * TournamentBranchPredictor) :=
  let LSB := int_and_ADDRINT (PHTsize t) branchPC in
  do c <- at_ (PHT t) LSB;
  if 2 <=? c then
    let t := set_used 0 t in
    do '(r, g) <- BP.getPrediction (gbranch t) branchPC;
    Ok (r, set_gbranch g t)
  else
    let t := set_used 1 t in
    do '(r, l) <- BP.getPrediction (lbranch t) branchPC;
    Ok (r, set_lbranch l t).

(** [if (PHT.at(LSB) > 0b00) PHT[LSB] --;] *)
Definition weaken (PHT : list Z) (LSB : Z) : result (list Z) :=
  do c <- at_ PHT LSB;
  Ok (if 0 <? c then decr PHT LSB else PHT).

(** [if (PHT.at(LSB) < 0b11) PHT[LSB] ++;] *)
Definition strengthen (PHT : list Z) (LSB : Z) : result (list Z) :=
  do c <- at_ PHT LSB;
  Ok (if c <? 3 then incr PHT LSB else PHT).

(** The selector update of the [if (branchWasTaken)] block. *)
Definition select_taken (used : Z) (gresult lresult : bool)
    (PHT : list Z) (LSB : Z) : result (list Z) :=
  if used =? 0 then
    if negb gresult && lresult then weaken PHT LSB
    else if gresult then strengthen PHT LSB
    else Ok PHT
  else if used =? 1 then
    if gresult && negb lresult then strengthen PHT LSB
    else if lresult then weaken PHT LSB
    else Ok PHT
  else Ok PHT.

(** The selector update of the [if (! branchWasTaken)] block. *)
Definition select_not_taken (used : Z) (gresult lresult : bool)
    (PHT : list Z) (LSB : Z) : result (list Z) :=
  if used =? 0 then
    if gresult && negb lresult then weaken PHT LSB
    else if negb gresult then strengthen PHT LSB
    else Ok PHT
  else if used =? 1 then
    if negb gresult && lresult then strengthen PHT LSB
    else if negb lresult then weaken PHT LSB
    else Ok PHT
  else Ok PHT.

Definition train (t : TournamentBranchPredictor) (branchPC : Z)
    (branchWasTaken : bool) : result TournamentBranchPredictor :=
  do '(gresult, g) <- BP.getPrediction (gbranch t) branchPC;
  let t := set_gbranch g t in
  do '(lresult, l) <- BP.getPrediction (lbranch t) branchPC;
  let t := set_lbranch l t in
  let LSB := int_and_ADDRINT (PHTsize t) branchPC in
  do t <-
    (if branchWasTaken then
       do g <- BP.train (gbranch t) branchPC true;
       let t := set_gbranch g t in
       do l <- BP.train (lbranch t) branchPC true;
       let t := set_lbranch l t in
       do v <- select_taken (used t) gresult lresult (PHT t) LSB;
       Ok (set_PHT v t)
     else Ok t);
  if negb branchWasTaken then
    do g <- BP.train (gbranch t) branchPC false;
    let t := set_gbranch g t in
    do l <- BP.train (lbranch t) branchPC false;
    let t := set_lbranch l t in
    do v <- select_not_taken (used t) gresult lresult (PHT t) LSB;
    Ok (set_PHT v t)
  else Ok t.

End Tournament.

#[export] Instance Tournament_BranchPredictorInterface
  : BP.BranchPredictorInterface Tournament.TournamentBranchPredictor :=
  {| BP.getPrediction := Tournament.getPrediction; BP.train := Tournament.train |}.

(** ** The harness *)

(** One call of the interface. *)
Inductive call : Set :=
| Predict (branchPC : Z)
| Train (branchPC : Z) (branchWasTaken : bool).

Definition do_call {T} `{BP.BranchPredictorInterface T} (p : T) (c : call)
  : result T :=
  match c with
  | Predict branchPC => do '(_, p') <- BP.getPrediction p branchPC; Ok p'
  | Train branchPC branchWasTaken => BP.train p branchPC branchWasTaken
  end.

Fixpoint do_calls {T} `{BP.BranchPredictorInterface T} (p : T) (cs : list call)
  : result T :=
  match cs with
  | [] => Ok p
  | c :: cs' => do p' <- do_call p c; do_calls p' cs'
  end.

(** [AtConditionalBranch]: predict, then train; the prediction is what the
    statistics count. *)
Definition AtConditionalBranch {T} `{BP.BranchPredictorInterface T} (p : T)
    (branchPC : Z) (branchWasTaken : bool) : result (bool * T) :=
  do '(wasPredictedTaken, p1) <- BP.getPrediction p branchPC;
  do p2 <- BP.train p1 branchPC branchWasTaken;
  Ok (wasPredictedTaken, p2).

Fixpoint run_trace {T} `{BP.BranchPredictorInterface T} (p : T)
    (tr : list (Z * bool)) : result T :=
  match tr with
  | [] => Ok p
  | (branchPC, branchWasTaken) :: tr' =>
      do '(_, p') <- AtConditionalBranch p branchPC branchWasTaken;
      run_trace p' tr'
  end.

(** ** Configuration and state invariants *)

Definition valid_size (N : Z) : Prop := N = 128 \/ N = 1024 \/ N = 4096.

Definition IndexMask (N : Z) : Z := N - 1.

Definition outcome_bit (outcome : bool) : Z := if outcome then 1 else 0.

Definition counters_ok (PHT : list Z) : Prop :=
  Forall (fun c => 0 <= c <= 3) PHT.

Definition history_ok (N h : Z) : Prop := 0 <= h <= IndexMask N.

Record Local_inv (N : Z) (p : Local.LocalBranchPredictor) : Prop := {
  l_numEntries : Local.numEntries p = N;
  l_PHTsize : Local.PHTsize p = IndexMask N;
  l_LHR_length : length (Local.LHR p) = 128%nat;
  l_LHR_bounded : Forall (history_ok N) (Local.LHR p);
  l_PHT_length : Z.of_nat (length (Local.PHT p)) = N;
  l_PHT_counters : counters_ok (Local.PHT p)
}.

Record Gshare_inv (N : Z) (p : Gshare.GshareBranchPredictor) : Prop := {
  g_numEntries : Gshare.numEntries p = N;
  g_PHTsize : Gshare.PHTsize p = IndexMask N;
  g_GHR_bounded : history_ok N (Gshare.GHR p);
  g_PHT_length : Z.of_nat (length (Gshare.PHT p)) = N;
  g_PHT_counters : counters_ok (Gshare.PHT p)
}.

Record Tournament_inv (N : Z) (t : Tournament.TournamentBranchPredictor)
  : Prop := {
  t_numEntries : Tournament.numEntries t = N;
  t_PHTsize : Tournament.PHTsize t = IndexMask N;
  t_used : Tournament.used t = 0 \/ Tournament.used t = 1 \/ Tournament.used t = 2;
  t_PHT_length : Z.of_nat (length (Tournament.PHT t)) = N;
  t_PHT_counters : counters_ok (Tournament.PHT t);
  t_lbranch : Local_inv N (Tournament.lbranch t);
  t_gbranch : Gshare_inv N (Tournament.gbranch t)
}.

(** States reached from a constructed predictor by any sequence of calls
    of the interface. *)
Definition reachable {T} `{BP.BranchPredictorInterface T}
    (constructed : result T) (p : T) : Prop :=
  exists p0 cs, constructed = Ok p0 /\ do_calls p0 cs = Ok p.

(** ** The operations as the specification words them *)

Module Spec.

(** [read(i)] is [counter[i] >= 2]. *)
Definition read (PHT : list Z) (i : Z) : bool := 2 <=? PHT !!! Z.to_nat i.

(** [bump(i, outcome)]: increment if below 3 when taken, else decrement
    if above 0. *)
Definition bump (PHT : list Z) (i : Z) (outcome : bool) : list Z :=
  let c := PHT !!! Z.to_nat i in
  if outcome then
    if c <? 3 then <[Z.to_nat i := c + 1]> PHT else PHT
  else
    if 0 <? c then <[Z.to_nat i := c - 1]> PHT else PHT.

(** [((idx << 1) | (outcome ? 1 : 0)) & IndexMask] *)
Definition shift_in (N idx : Z) (outcome : bool) : Z :=
  Z.land (Z.lor (Z.shiftl idx 1) (outcome_bit outcome)) (IndexMask N).

(** Local predictor: [bucket = address & bucket_mask], with the mask of
    the 128 history registers; [idx = LHR[bucket] & IndexMask]. *)
Definition bucket_mask : Z := 127.
Definition bucket (address : Z) : Z := Z.land address bucket_mask.
Definition local_idx (N : Z) (LHR : list Z) (address : Z) : Z :=
  Z.land (LHR !!! Z.to_nat (bucket address)) (IndexMask N).

(** Gshare predictor: [idx = (address & IndexMask) XOR GHR]. *)
Definition gshare_idx (N GHR address : Z) : Z :=
  Z.lxor (Z.land address (IndexMask N)) GHR.

(** Tournament selector: [sel = address & IndexMask]. *)
Definition sel (N address : Z) : Z := Z.land address (IndexMask N).

End Spec.

(** ** The operations on whole predictors, as the specification words them *)

(** The value [bump] leaves in the counter it touches. *)
Definition sat_step (c : Z) (outcome : bool) : Z :=
  if outcome then Z.min 3 (c + 1) else Z.max 0 (c - 1).

(** [train] of the local predictor: bump at [idx], then shift the outcome
    into the history register of the bucket. *)
Definition spec_local_train (N : Z) (p : Local.LocalBranchPredictor)
    (address : Z) (outcome : bool) : Local.LocalBranchPredictor :=
  let idx := Spec.local_idx N (Local.LHR p) address in
  {| Local.numEntries := Local.numEntries p;
     Local.PHTsize := Local.PHTsize p;
     Local.LHR := <[Z.to_nat (Spec.bucket address) := Spec.shift_in N idx outcome]>
                    (Local.LHR p);
     Local.PHT := Spec.bump (Local.PHT p) idx outcome |}.

(** [train] of the gshare predictor: bump at [idx], then shift the outcome
    into the global history. *)
Definition spec_gshare_train (N : Z) (p : Gshare.GshareBranchPredictor)
    (address : Z) (outcome : bool) : Gshare.GshareBranchPredictor :=
  let idx := Spec.gshare_idx N (Gshare.GHR p) address in
  {| Gshare.numEntries := Gshare.numEntries p;
     Gshare.PHTsize := Gshare.PHTsize p;
     Gshare.GHR := Spec.shift_in N idx outcome;
     Gshare.PHT := Spec.bump (Gshare.PHT p) idx outcome |}.

(** What the sub-predictors predict. *)
Definition gshare_result (N : Z) (g : Gshare.GshareBranchPredictor)
    (address : Z) : bool :=
  Spec.read (Gshare.PHT g) (Spec.gshare_idx N (Gshare.GHR g) address).

Definition local_result (N : Z) (l : Local.LocalBranchPredictor)
    (address : Z) : bool :=
  Spec.read (Local.PHT l) (Spec.local_idx N (Local.LHR l) address).

(** ** The selector update of the tournament predictor *)

(** The direction in which [train] moves the selector counter: [Some true]
    towards gshare (increment), [Some false] towards local (decrement),
    [None] no move. *)
Definition selector_move (used : Z) (gresult lresult outcome : bool)
  : option bool :=
  if (used =? 0) || (used =? 1) then
    if Bool.eqb gresult lresult then
      if Bool.eqb gresult outcome then Some (used =? 0) else None
    else Some (Bool.eqb gresult outcome)
  else None.

Definition apply_move (m : option bool) (PHT : list Z) (sel : Z) : list Z :=
  match m with
  | Some d => Spec.bump PHT sel d
  | None => PHT
  end.

(** [train] of the tournament predictor in terms of its parts. *)
Definition spec_tournament_train (N : Z)
    (t : Tournament.TournamentBranchPredictor) (address : Z) (outcome : bool)
  : Tournament.TournamentBranchPredictor :=
  let gresult := gshare_result N (Tournament.gbranch t) address in
  let lresult := local_result N (Tournament.lbranch t) address in
  {| Tournament.numEntries := Tournament.numEntries t;
     Tournament.gbranch := spec_gshare_train N (Tournament.gbranch t) address outcome;
     Tournament.lbranch := spec_local_train N (Tournament.lbranch t) address outcome;
     Tournament.PHTsize := Tournament.PHTsize t;
     Tournament.used := Tournament.used t;
     Tournament.PHT :=
       apply_move (selector_move (Tournament.used t) gresult lresult outcome)
         (Tournament.PHT t) (Spec.sel N address) |}.

(** ** The indices the code computes *)

(** [index] in [LocalBranchPredictor::getPrediction] and [train]. *)
Definition local_index (l : Local.LocalBranchPredictor) (branchPC : Z) : Z :=
  Local.LHR l !!! Z.to_nat (int_and_ADDRINT 127 branchPC).

(** [index] in [GshareBranchPredictor::getPrediction] and [train]. *)
Definition gshare_index (g : Gshare.GshareBranchPredictor) (branchPC : Z) : Z :=
  Z.lxor (int_and_ADDRINT (Gshare.PHTsize g) branchPC) (Gshare.GHR g).

(** [LSB] in [TournamentBranchPredictor::getPrediction] and [train]. *)
Definition selector_index (t : Tournament.TournamentBranchPredictor)
    (branchPC : Z) : Z :=
  int_and_ADDRINT (Tournament.PHTsize t) branchPC.

(** The histories are bounded, the table has [N] counters and every index
    falls inside it. *)
Definition local_indices_ok (N : Z) (l : Local.LocalBranchPredictor) : Prop :=
  Forall (fun h => 0 <= h <= IndexMask N) (Local.LHR l) /\
  Z.of_nat (length (Local.PHT l)) = N /\
  forall branchPC,
    0 <= local_index l branchPC < N /\
    exists c, at_ (Local.PHT l) (local_index l branchPC) = Ok c.

Definition gshare_indices_ok (N : Z) (g : Gshare.GshareBranchPredictor) : Prop :=
  0 <= Gshare.GHR g <= IndexMask N /\
  Z.of_nat (length (Gshare.PHT g)) = N /\
  forall branchPC,
    0 <= gshare_index g branchPC < N /\
    exists c, at_ (Gshare.PHT g) (gshare_index g branchPC) = Ok c.

Definition selector_indices_ok (N : Z) (t : Tournament.TournamentBranchPredictor)
  : Prop :=
  Z.of_nat (length (Tournament.PHT t)) = N /\
  forall branchPC,
    0 <= selector_index t branchPC < N /\
    exists c, at_ (Tournament.PHT t) (selector_index t branchPC) = Ok c.

(** No call raises: every call returns a state. *)
Definition never_raises {T} `{BP.BranchPredictorInterface T} (p : T) : Prop :=
  forall branchPC,
    (exists r p', BP.getPrediction p branchPC = Ok (r, p')) /\
    (forall taken, exists p', BP.train p branchPC taken = Ok p').

(** ** Construction and call sequences *)

(** Calls of [train] only, and calls of [getPrediction] only. *)
Definition train_calls (tr : list (Z * bool)) : list call :=
  map (fun x => Train (fst x) (snd x)) tr.

Definition predict_calls (addresses : list Z) : list call := map Predict addresses.

(** ** Concrete states used to instantiate the theorems *)

(** The tournament predictor of size 128 as constructed. *)
Definition fresh_tournament : Tournament.TournamentBranchPredictor :=
  Tournament.mk 128
    (Gshare.mk 128 127 0 (replicate 128 3))
    (Local.mk 128 127 (replicate 128 0) (replicate 128 3))
    127 2 (replicate 128 3).

(** The local predictor of size 128 after three taken branches at
    [0x1000]. *)
Definition demo_local : Local.LocalBranchPredictor :=
  Local.mk 128 127 (<[0%nat := 7]> (replicate 128 0)) (replicate 128 3).

(** The gshare predictor of size 128 after a not-taken branch at address 1. *)
Definition demo_gshare : Gshare.GshareBranchPredictor :=
  Gshare.mk 128 127 2 (<[1%nat := 2]> (replicate 128 3)).

(** The branches (1, not taken) three times, (2, taken) and (3, taken),
    each predicted and then trained, followed by a prediction request for
    address 1; and the tournament predictor of size 128 they lead to. *)
Definition demo_calls : list call :=
  [Predict 1; Train 1 false; Predict 1; Train 1 false; Predict 1; Train 1 false;
   Predict 2; Train 2 true; Predict 3; Train 3 true; Predict 1].

Definition demo_tournament : Tournament.TournamentBranchPredictor :=
  Tournament.mk 128
    (Gshare.mk 128 127 53
       (<[7%nat := 2]> (<[3%nat := 2]> (<[1%nat := 2]> (replicate 128 3)))))
    (Local.mk 128 127
       (<[3%nat := 1]> (<[2%nat := 1]> (replicate 128 0)))
       (<[0%nat := 2]> (replicate 128 3)))
    127 0 (<[1%nat := 2]> (replicate 128 3)).

(** ** Always-taken predictor *)

Module AlwaysTaken.

(** The class has no data member. *)
Inductive AlwaysTakenBranchPredictor : Set := mk.

Definition new (numberOfEntries : Z) : result AlwaysTakenBranchPredictor :=
  Ok mk.

Definition getPrediction (p : AlwaysTakenBranchPredictor) (branchPC : Z)
  : result (bool * AlwaysTakenBranchPredictor) :=
  Ok (true, p).

Definition train (p : AlwaysTakenBranchPredictor) (branchPC : Z)
    (branchWasTaken : bool) : result AlwaysTakenBranchPredictor :=
  Ok p.

End AlwaysTaken.

#[export] Instance AlwaysTaken_BranchPredictorInterface
  : BP.BranchPredictorInterface AlwaysTaken.AlwaysTakenBranchPredictor :=
  {| BP.getPrediction := AlwaysTaken.getPrediction; BP.train := AlwaysTaken.train |}.

(** ** The predictor [main] selects *)










(** ** The counters of the simulation *)

Definition STOP_INSTR_NUM : Z := 1000000000.
Definition SIMULATOR_HEARTBEAT_INSTR_NUM : Z := 100000000.

(** The seven [static UINT64] counters. *)
Record Counts : Type := mkCounts {
  iCount : Z;
  correctPredictionCount : Z;
  conditionalBranchesCount : Z;
  takenBranchesCount : Z;
  notTakenBranchesCount : Z;
  predictedTakenBranchesCount : Z;
  predictedNotTakenBranchesCount : Z
}.

Definition zero_counts : Counts := mkCounts 0 0 0 0 0 0 0.

(** [x ++] on a [UINT64]. *)
Definition UINT64_incr (x : Z) : Z := (x + 1) mod 2 ^ 64.

(** What [docount] sends out: the heartbeat message with the count it
    prints, and the call of [PIN_Detach]. *)
Inductive event : Set :=
| Heartbeat (executed : Z)
| Detach.

Definition docount (s : Counts) : Counts * list event :=
  let iCount' := UINT64_incr (iCount s) in
  let s' := mkCounts iCount' (correctPredictionCount s)
              (conditionalBranchesCount s) (takenBranchesCount s)
              (notTakenBranchesCount s) (predictedTakenBranchesCount s)
              (predictedNotTakenBranchesCount s) in
  let heartbeat :=
    if iCount' mod SIMULATOR_HEARTBEAT_INSTR_NUM =? 0
    then [Heartbeat iCount'] else [] in
  let detach := if iCount' =? STOP_INSTR_NUM then [Detach] else [] in
  (s', heartbeat ++ detach).

(** [n] executed instructions. *)
Fixpoint docounts (n : nat) (s : Counts) : Counts * list event :=
  match n with
  | O => (s, [])
  | S k =>
      let '(s1, out1) := docount s in
      let '(s2, out2) := docounts k s1 in
      (s2, out1 ++ out2)
  end.

Definition is_heartbeat (e : event) : bool :=
  match e with Heartbeat _ => true | Detach => false end.

Definition is_detach (e : event) : bool :=
  match e with Heartbeat _ => false | Detach => true end.

Definition count_events (f : event -> bool) (out : list event) : Z :=
  Z.of_nat (length (List.filter f out)).

(** The counting part of [AtConditionalBranch], after the predictor has
    been asked and trained. *)
Definition count_branch (wasPredictedTaken branchWasTaken : bool) (s : Counts)
  : Counts :=
  let conditional := UINT64_incr (conditionalBranchesCount s) in
  let predictedTaken :=
    if wasPredictedTaken then UINT64_incr (predictedTakenBranchesCount s)
    else predictedTakenBranchesCount s in
  let predictedNotTaken :=
    if wasPredictedTaken then predictedNotTakenBranchesCount s
    else UINT64_incr (predictedNotTakenBranchesCount s) in
  let taken :=
    if branchWasTaken then UINT64_incr (takenBranchesCount s)
    else takenBranchesCount s in
  let notTaken :=
    if branchWasTaken then notTakenBranchesCount s
    else UINT64_incr (notTakenBranchesCount s) in
  let correct :=
    if Bool.eqb wasPredictedTaken branchWasTaken
    then UINT64_incr (correctPredictionCount s)
    else correctPredictionCount s in
  mkCounts (iCount s) correct conditional taken notTaken
    predictedTaken predictedNotTaken.

(** [AtConditionalBranch] with its counters. *)
Definition AtConditionalBranch_counts {T} `{BP.BranchPredictorInterface T}
    (p : T) (s : Counts) (branchPC : Z) (branchWasTaken : bool)
  : result (T * Counts) :=
  do '(wasPredictedTaken, p') <- AtConditionalBranch p branchPC branchWasTaken;
  Ok (p', count_branch wasPredictedTaken branchWasTaken s).

(** The conditional branches of a run, in order. *)
Fixpoint simulate {T} `{BP.BranchPredictorInterface T} (p : T) (s : Counts)
    (tr : list (Z * bool)) : result (T * Counts) :=
  match tr with
  | [] => Ok (p, s)
  | (branchPC, branchWasTaken) :: tr' =>
      do '(p', s') <- AtConditionalBranch_counts p s branchPC branchWasTaken;
      simulate p' s' tr'
  end.

(** How many branches of a trace are taken. *)
Fixpoint taken_in (tr : list (Z * bool)) : Z :=
  match tr with
  | [] => 0
  | (_, branchWasTaken) :: tr' => outcome_bit branchWasTaken + taken_in tr'
  end.

(** ** Histories as shift registers *)

(** The outcomes [outs], oldest first, shifted into the history [h]. *)
Fixpoint push_outcomes (h : Z) (outs : list bool) : Z :=
  match outs with
  | [] => h
  | o :: outs' => push_outcomes (2 * h + outcome_bit o) outs'
  end.

(** The number of bits of an index: [N = 2 ^ index_bits N] for the three
    supported sizes. *)
Definition index_bits (N : Z) : Z := Z.log2 N.

(** Training one address with the same outcome [n] times. *)
Definition repeat_train (branchPC : Z) (outcome : bool) (n : nat) : list call :=
  replicate n (Train branchPC outcome).

(** The tournament predictor of size 128 after the branch (1, not taken)
    twice, each predicted and then trained, and a prediction request for
    address 1: gshare predicts taken and local predicts not taken. *)
Definition demo_disagreement : Tournament.TournamentBranchPredictor :=
  Tournament.mk 128
    (Gshare.mk 128 127 6 (<[3%nat := 2]> (<[1%nat := 2]> (replicate 128 3))))
    (Local.mk 128 127 (replicate 128 0) (<[0%nat := 1]> (replicate 128 3)))
    127 0 (replicate 128 3).

(** ** Arithmetic of the masks *)

Lemma to_int_small z : - 2147483648 <= z < 2147483648 -> to_int z = z.
Proof.
  intros Hz. unfold to_int.
  change (2 ^ 31) with 2147483648. change (2 ^ 32) with 4294967296.
  rewrite Z.mod_small by lia. lia.
Qed.

Lemma valid_size_ones N :
  valid_size N -> exists k, 1 <= k <= 12 /\ IndexMask N = Z.ones k /\ N = 2 ^ k.
Proof.
  unfold IndexMask.
  intros [-> | [-> | ->]]; [exists 7 | exists 10 | exists 12];
    repeat split; try lia; reflexivity.
Qed.

Lemma valid_size_range N : valid_size N -> 128 <= N <= 4096.
Proof. unfold valid_size. lia. Qed.

Lemma land_mask_bounds N x :
  valid_size N -> 0 <= Z.land x (IndexMask N) <= IndexMask N.
Proof.
  intros HN. destruct (valid_size_ones N HN) as (k & Hk & -> & _).
  rewrite Z.land_ones by lia. rewrite Z.ones_equiv.
  pose proof (Z.mod_pos_bound x (2 ^ k)) as Hm.
  assert (0 < 2 ^ k) by (apply Z.pow_pos_nonneg; lia). lia.
Qed.

Lemma land_mask_small N x :
  valid_size N -> 0 <= x <= IndexMask N -> Z.land x (IndexMask N) = x.
Proof.
  intros HN Hx. destruct (valid_size_ones N HN) as (k & Hk & HM & _).
  rewrite HM in *. rewrite Z.land_ones by lia.
  rewrite Z.ones_equiv in Hx. apply Z.mod_small. lia.
Qed.

Lemma lxor_mask_bounds N a b :
  valid_size N -> 0 <= a <= IndexMask N -> 0 <= b <= IndexMask N ->
  0 <= Z.lxor a b <= IndexMask N.
Proof.
  intros HN Ha Hb. destruct (valid_size_ones N HN) as (k & Hk & HM & _).
  rewrite HM in *. rewrite Z.ones_equiv in *.
  assert (Hnn : 0 <= Z.lxor a b) by (apply Z.lxor_nonneg; lia).
  split; [exact Hnn|].
  destruct (Z.eq_dec (Z.lxor a b) 0) as [-> | Hne].
  - assert (0 < 2 ^ k) by (apply Z.pow_pos_nonneg; lia). lia.
  - assert (Hlog : forall c, 0 <= c < 2 ^ k -> Z.log2 c < k).
    { intros c Hc. destruct (Z.eq_dec c 0) as [-> | Hc0].
      - simpl. lia.
      - apply Z.log2_lt_pow2; lia. }
    pose proof (Z.log2_lxor a b ltac:(lia) ltac:(lia)) as Hl.
    pose proof (Hlog a ltac:(lia)). pose proof (Hlog b ltac:(lia)).
    assert (Z.lxor a b < 2 ^ k) by (apply Z.log2_lt_pow2; lia).
    lia.
Qed.

Lemma int_and_ADDRINT_mask N branchPC :
  valid_size N ->
  int_and_ADDRINT (IndexMask N) branchPC = Z.land branchPC (IndexMask N).
Proof.
  intros HN. pose proof (valid_size_range N HN) as HR.
  unfold int_and_ADDRINT, to_ADDRINT.
  change (2 ^ 64) with 18446744073709551616.
  rewrite (Z.mod_small (IndexMask N)) by (unfold IndexMask; lia).
  rewrite Z.land_comm.
  pose proof (land_mask_bounds N branchPC HN) as Hb.
  apply to_int_small. unfold IndexMask in *. lia.
Qed.

Lemma int_and_ADDRINT_127 branchPC :
  int_and_ADDRINT 127 branchPC = Spec.bucket branchPC.
Proof.
  change 127 with (IndexMask 128).
  rewrite int_and_ADDRINT_mask by (left; reflexivity). reflexivity.
Qed.

Lemma bucket_bounds address : 0 <= Spec.bucket address <= 127.
Proof.
  pose proof (land_mask_bounds 128 address ltac:(left; reflexivity)) as H.
  exact H.
Qed.

Lemma shiftl1_add_bit idx outcome :
  Z.shiftl idx 1 + outcome_bit outcome = Z.lor (Z.shiftl idx 1) (outcome_bit outcome).
Proof.
  destruct outcome; simpl outcome_bit.
  - assert (Hland : Z.land (Z.shiftl idx 1) 1 = 0).
    { pose proof (Z.land_ones (Z.shiftl idx 1) 1 ltac:(lia)) as H.
      change (Z.ones 1) with 1 in H. rewrite H.
      rewrite Z.shiftl_mul_pow2 by lia. apply Z.mod_mul. lia. }
    rewrite Z.add_nocarry_lxor by exact Hland.
    apply Z.lxor_lor, Hland.
  - rewrite Z.lor_0_r. lia.
Qed.

(** The history update of the code is the [shift_in] of the specification. *)
Lemma shl1_add_shift_in N idx :
  valid_size N -> 0 <= idx <= IndexMask N ->
  Z.land (shl1_add idx 1) (IndexMask N) = Spec.shift_in N idx true /\
  Z.land (to_int (Z.shiftl idx 1)) (IndexMask N) = Spec.shift_in N idx false.
Proof.
  intros HN Hidx. pose proof (valid_size_range N HN) as HR.
  unfold IndexMask in Hidx.
  assert (Hs : Z.shiftl idx 1 = 2 * idx)
    by (rewrite Z.shiftl_mul_pow2 by lia; lia).
  unfold Spec.shift_in, shl1_add.
  rewrite <- !shiftl1_add_bit. simpl outcome_bit. rewrite Hs.
  rewrite (to_int_small (2 * idx)) by lia.
  rewrite (to_int_small (2 * idx + 1)) by lia.
  rewrite Z.add_0_r. split; reflexivity.
Qed.

Lemma shift_in_bounds N idx outcome :
  valid_size N -> history_ok N (Spec.shift_in N idx outcome).
Proof. intros HN. apply land_mask_bounds, HN. Qed.

(** ** Tables of counters *)

Lemma push_back_loop_replicate n PHT :
  push_back_loop n PHT = PHT ++ replicate n 3.
Proof.
  revert PHT. induction n as [|n IH]; intros PHT; simpl.
  - now rewrite app_nil_r.
  - rewrite IH, <- app_assoc. reflexivity.
Qed.

Lemma fresh_table numberOfEntries :
  push_back_loop (Z.to_nat numberOfEntries) [] =
  replicate (Z.to_nat numberOfEntries) 3.
Proof. apply push_back_loop_replicate. Qed.

Lemma fresh_table_length N :
  0 <= N ->
  Z.of_nat (length (push_back_loop (Z.to_nat N) [])) = N.
Proof. intros HN. rewrite fresh_table, length_replicate. lia. Qed.

Lemma fresh_table_counters n : counters_ok (push_back_loop n []).
Proof.
  rewrite push_back_loop_replicate. simpl.
  apply Forall_replicate. lia.
Qed.

Lemma at_in_range (v : list Z) index :
  0 <= index < Z.of_nat (length v) ->
  at_ v index = Ok (v !!! Z.to_nat index).
Proof.
  intros Hi. unfold at_.
  destruct (Z.ltb_spec index 0) as [Hneg | _]; [lia|].
  rewrite list_lookup_lookup_total_lt by lia. reflexivity.
Qed.

Lemma at_out_of_range (v : list Z) index :
  ~ 0 <= index < Z.of_nat (length v) -> at_ v index = Throw out_of_range.
Proof.
  intros Hi. unfold at_.
  destruct (Z.ltb_spec index 0) as [Hneg | Hpos]; [reflexivity|].
  rewrite (lookup_ge_None_2 v (Z.to_nat index)) by lia. reflexivity.
Qed.

Lemma counter_bounds (v : list Z) index :
  counters_ok v -> 0 <= index < Z.of_nat (length v) ->
  0 <= v !!! Z.to_nat index <= 3.
Proof.
  intros Hv Hi.
  apply (Forall_lookup_total_1 (fun c => 0 <= c <= 3) v); [exact Hv | lia].
Qed.

(** The guarded [++] and [--] of the code are the [bump] of the
    specification. *)
Lemma guarded_incr_bump (v : list Z) index :
  counters_ok v -> 0 <= index < Z.of_nat (length v) ->
  (if v !!! Z.to_nat index <? 3 then incr v index else v) = Spec.bump v index true.
Proof.
  intros Hv Hi. pose proof (counter_bounds v index Hv Hi) as Hc.
  unfold Spec.bump, incr.
  destruct (Z.ltb_spec (v !!! Z.to_nat index) 3) as [Hlt | Hge]; [|reflexivity].
  rewrite list_lookup_lookup_total_lt by lia.
  rewrite to_int_small by lia. reflexivity.
Qed.

Lemma guarded_decr_bump (v : list Z) index :
  counters_ok v -> 0 <= index < Z.of_nat (length v) ->
  (if 0 <? v !!! Z.to_nat index then decr v index else v) = Spec.bump v index false.
Proof.
  intros Hv Hi. pose proof (counter_bounds v index Hv Hi) as Hc.
  unfold Spec.bump, decr.
  destruct (Z.ltb_spec 0 (v !!! Z.to_nat index)) as [Hlt | Hge]; [|reflexivity].
  rewrite list_lookup_lookup_total_lt by lia.
  rewrite to_int_small by lia. reflexivity.
Qed.

Lemma bump_length (v : list Z) index outcome :
  length (Spec.bump v index outcome) = length v.
Proof.
  unfold Spec.bump.
  destruct outcome; [destruct (_ <? 3) | destruct (0 <? _)];
    rewrite ?length_insert; reflexivity.
Qed.

Lemma bump_counters (v : list Z) index outcome :
  counters_ok v -> 0 <= index < Z.of_nat (length v) ->
  counters_ok (Spec.bump v index outcome).
Proof.
  intros Hv Hi. pose proof (counter_bounds v index Hv Hi) as Hc.
  unfold Spec.bump, counters_ok.
  destruct outcome.
  - destruct (Z.ltb_spec (v !!! Z.to_nat index) 3); [|exact Hv].
    apply Forall_insert; [exact Hv | lia].
  - destruct (Z.ltb_spec 0 (v !!! Z.to_nat index)); [|exact Hv].
    apply Forall_insert; [exact Hv | lia].
Qed.

Lemma bump_lookup_eq (v : list Z) index outcome :
  counters_ok v -> 0 <= index < Z.of_nat (length v) ->
  Spec.bump v index outcome !!! Z.to_nat index =
  sat_step (v !!! Z.to_nat index) outcome.
Proof.
  intros Hv Hi. pose proof (counter_bounds v index Hv Hi) as Hc.
  unfold Spec.bump, sat_step.
  destruct outcome.
  - destruct (Z.ltb_spec (v !!! Z.to_nat index) 3).
    + rewrite list_lookup_total_insert_eq by lia. lia.
    + lia.
  - destruct (Z.ltb_spec 0 (v !!! Z.to_nat index)).
    + rewrite list_lookup_total_insert_eq by lia. lia.
    + lia.
Qed.

Lemma bump_lookup_ne (v : list Z) index outcome (j : nat) :
  j <> Z.to_nat index ->
  Spec.bump v index outcome !! j = v !! j.
Proof.
  intros Hj. unfold Spec.bump.
  destruct outcome; [destruct (_ <? 3) | destruct (0 <? _)];
    try reflexivity; apply list_lookup_insert_ne; congruence.
Qed.

(** ** Local predictor: the code against the specification *)

Section LocalFacts.

Variable N : Z.
Hypothesis HN : valid_size N.
Variable p : Local.LocalBranchPredictor.
Hypothesis Hp : Local_inv N p.

Lemma local_history_bounded address :
  history_ok N (Local.LHR p !!! Z.to_nat (Spec.bucket address)).
Proof.
  pose proof (bucket_bounds address) as Hb.
  apply (Forall_lookup_total_1 (history_ok N)); [apply Hp|].
  rewrite (l_LHR_length N p Hp). lia.
Qed.

Lemma local_idx_code address :
  Spec.local_idx N (Local.LHR p) address =
  Local.LHR p !!! Z.to_nat (Spec.bucket address).
Proof. apply land_mask_small; [exact HN | apply local_history_bounded]. Qed.

Lemma local_idx_bounds address :
  0 <= Spec.local_idx N (Local.LHR p) address < N.
Proof.
  rewrite local_idx_code.
  pose proof (local_history_bounded address) as H.
  unfold history_ok, IndexMask in H. lia.
Qed.

Lemma local_idx_in_table address :
  0 <= Spec.local_idx N (Local.LHR p) address
    < Z.of_nat (length (Local.PHT p)).
Proof. rewrite (l_PHT_length N p Hp). apply local_idx_bounds. Qed.

Lemma Local_getPrediction_spec address :
  Local.getPrediction p address =
  Ok (Spec.read (Local.PHT p) (Spec.local_idx N (Local.LHR p) address), p).
Proof.
  unfold Local.getPrediction.
  rewrite int_and_ADDRINT_127, <- local_idx_code.
  rewrite at_in_range by apply local_idx_in_table.
  unfold Spec.read. simpl.
  destruct (2 <=? _); reflexivity.
Qed.

Lemma Local_train_spec address outcome :
  Local.train p address outcome = Ok (spec_local_train N p address outcome).
Proof.
  pose proof (local_idx_in_table address) as Hi.
  pose proof (local_idx_bounds address) as Hb.
  unfold Local.train, spec_local_train.
  rewrite int_and_ADDRINT_127, <- local_idx_code.
  rewrite at_in_range by exact Hi.
  rewrite (l_PHTsize N p Hp).
  destruct (shl1_add_shift_in N (Spec.local_idx N (Local.LHR p) address) HN)
    as [Ht Hf]; [unfold IndexMask; lia|].
  destruct outcome; simpl.
  - rewrite guarded_incr_bump by (exact Hi || apply Hp). rewrite Ht. reflexivity.
  - rewrite guarded_decr_bump by (exact Hi || apply Hp). rewrite Hf. reflexivity.
Qed.

Lemma spec_local_train_inv address outcome :
  Local_inv N (spec_local_train N p address outcome).
Proof.
  pose proof (local_idx_in_table address) as Hi.
  destruct Hp as [H1 H2 H3 H4 H5 H6].
  constructor; simpl; try assumption.
  - rewrite length_insert. exact H3.
  - apply Forall_insert; [exact H4 | apply shift_in_bounds, HN].
  - rewrite bump_length. exact H5.
  - apply bump_counters; assumption.
Qed.

End LocalFacts.

(** ** Gshare predictor: the code against the specification *)

Section GshareFacts.

Variable N : Z.
Hypothesis HN : valid_size N.
Variable p : Gshare.GshareBranchPredictor.
Hypothesis Hp : Gshare_inv N p.

Lemma gshare_idx_bounds address :
  0 <= Spec.gshare_idx N (Gshare.GHR p) address < N.
Proof.
  pose proof (lxor_mask_bounds N (Z.land address (IndexMask N)) (Gshare.GHR p)
                HN (land_mask_bounds N address HN) (g_GHR_bounded N p Hp)) as H.
  unfold Spec.gshare_idx, IndexMask in *. lia.
Qed.

Lemma gshare_idx_in_table address :
  0 <= Spec.gshare_idx N (Gshare.GHR p) address
    < Z.of_nat (length (Gshare.PHT p)).
Proof. rewrite (g_PHT_length N p Hp). apply gshare_idx_bounds. Qed.

Lemma Gshare_getPrediction_spec address :
  Gshare.getPrediction p address =
  Ok (Spec.read (Gshare.PHT p) (Spec.gshare_idx N (Gshare.GHR p) address), p).
Proof.
  unfold Gshare.getPrediction.
  rewrite (g_PHTsize N p Hp), int_and_ADDRINT_mask by exact HN.
  fold (Spec.gshare_idx N (Gshare.GHR p) address).
  rewrite at_in_range by apply gshare_idx_in_table.
  unfold Spec.read. simpl.
  destruct (2 <=? _); reflexivity.
Qed.

Lemma Gshare_train_spec address outcome :
  Gshare.train p address outcome = Ok (spec_gshare_train N p address outcome).
Proof.
  pose proof (gshare_idx_in_table address) as Hi.
  pose proof (gshare_idx_bounds address) as Hb.
  unfold Gshare.train, spec_gshare_train.
  rewrite (g_PHTsize N p Hp), int_and_ADDRINT_mask by exact HN.
  fold (Spec.gshare_idx N (Gshare.GHR p) address).
  rewrite at_in_range by exact Hi.
  destruct (shl1_add_shift_in N (Spec.gshare_idx N (Gshare.GHR p) address) HN)
    as [Ht Hf]; [unfold IndexMask; lia|].
  destruct outcome; simpl.
  - rewrite guarded_incr_bump by (exact Hi || apply Hp). rewrite Ht. reflexivity.
  - rewrite guarded_decr_bump by (exact Hi || apply Hp). rewrite Hf. reflexivity.
Qed.

Lemma spec_gshare_train_inv address outcome :
  Gshare_inv N (spec_gshare_train N p address outcome).
Proof.
  pose proof (gshare_idx_in_table address) as Hi.
  destruct Hp as [H1 H2 H3 H4 H5].
  constructor; simpl; try assumption.
  - apply shift_in_bounds, HN.
  - rewrite bump_length. exact H4.
  - apply bump_counters; assumption.
Qed.

End GshareFacts.

(** ** Tournament predictor: the code against its parts *)

Lemma weaken_bump (v : list Z) sel :
  counters_ok v -> 0 <= sel < Z.of_nat (length v) ->
  Tournament.weaken v sel = Ok (Spec.bump v sel false).
Proof.
  intros Hv Hi. unfold Tournament.weaken.
  rewrite at_in_range by exact Hi. simpl.
  rewrite guarded_decr_bump by assumption. reflexivity.
Qed.

Lemma strengthen_bump (v : list Z) sel :
  counters_ok v -> 0 <= sel < Z.of_nat (length v) ->
  Tournament.strengthen v sel = Ok (Spec.bump v sel true).
Proof.
  intros Hv Hi. unfold Tournament.strengthen.
  rewrite at_in_range by exact Hi. simpl.
  rewrite guarded_incr_bump by assumption. reflexivity.
Qed.

Lemma select_taken_move used gresult lresult (v : list Z) sel :
  counters_ok v -> 0 <= sel < Z.of_nat (length v) ->
  Tournament.select_taken used gresult lresult v sel =
  Ok (apply_move (selector_move used gresult lresult true) v sel).
Proof.
  intros Hv Hi. unfold Tournament.select_taken, selector_move.
  destruct (used =? 0), (used =? 1), gresult, lresult; simpl;
    rewrite ?weaken_bump, ?strengthen_bump by assumption; reflexivity.
Qed.

Lemma select_not_taken_move used gresult lresult (v : list Z) sel :
  counters_ok v -> 0 <= sel < Z.of_nat (length v) ->
  Tournament.select_not_taken used gresult lresult v sel =
  Ok (apply_move (selector_move used gresult lresult false) v sel).
Proof.
  intros Hv Hi. unfold Tournament.select_not_taken, selector_move.
  destruct (used =? 0), (used =? 1), gresult, lresult; simpl;
    rewrite ?weaken_bump, ?strengthen_bump by assumption; reflexivity.
Qed.

Section TournamentFacts.

Local Arguments Local.getPrediction : simpl never.
Local Arguments Local.train : simpl never.
Local Arguments Gshare.getPrediction : simpl never.
Local Arguments Gshare.train : simpl never.

Variable N : Z.
Hypothesis HN : valid_size N.
Variable t : Tournament.TournamentBranchPredictor.
Hypothesis Ht : Tournament_inv N t.

Lemma sel_bounds address : 0 <= Spec.sel N address < N.
Proof.
  pose proof (land_mask_bounds N address HN) as H.
  unfold Spec.sel, IndexMask in *. lia.
Qed.

Lemma sel_in_table address :
  0 <= Spec.sel N address < Z.of_nat (length (Tournament.PHT t)).
Proof. rewrite (t_PHT_length N t Ht). apply sel_bounds. Qed.

Lemma Tournament_getPrediction_spec address :
  Tournament.getPrediction t address =
  Ok (if 2 <=? Tournament.PHT t !!! Z.to_nat (Spec.sel N address)
      then (gshare_result N (Tournament.gbranch t) address,
            Tournament.set_used 0 t)
      else (local_result N (Tournament.lbranch t) address,
            Tournament.set_used 1 t)).
Proof.
  unfold Tournament.getPrediction.
  rewrite (t_PHTsize N t Ht), int_and_ADDRINT_mask by exact HN.
  fold (Spec.sel N address).
  rewrite at_in_range by apply sel_in_table. simpl.
  destruct (2 <=? _); simpl.
  - rewrite (Gshare_getPrediction_spec N HN) by apply Ht.
    destruct t; reflexivity.
  - rewrite (Local_getPrediction_spec N HN) by apply Ht.
    destruct t; reflexivity.
Qed.

Lemma Tournament_train_spec address outcome :
  Tournament.train t address outcome =
  Ok (spec_tournament_train N t address outcome).
Proof.
  pose proof (sel_in_table address) as Hi.
  pose proof (t_PHT_counters N t Ht) as Hc.
  pose proof (t_gbranch N t Ht) as Hg.
  pose proof (t_lbranch N t Ht) as Hl.
  unfold Tournament.train. simpl.
  rewrite (Gshare_getPrediction_spec N HN _ Hg). simpl.
  rewrite (Local_getPrediction_spec N HN _ Hl). simpl.
  rewrite (t_PHTsize N t Ht), int_and_ADDRINT_mask by exact HN.
  fold (Spec.sel N address).
  fold (gshare_result N (Tournament.gbranch t) address).
  fold (local_result N (Tournament.lbranch t) address).
  destruct outcome; simpl.
  - rewrite (Gshare_train_spec N HN _ Hg). simpl.
    rewrite (Local_train_spec N HN _ Hl). simpl.
    rewrite select_taken_move by assumption. simpl.
    unfold spec_tournament_train, Tournament.set_PHT. simpl.
    rewrite (t_PHTsize N t Ht). reflexivity.
  - rewrite (Gshare_train_spec N HN _ Hg). simpl.
    rewrite (Local_train_spec N HN _ Hl). simpl.
    rewrite select_not_taken_move by assumption. simpl.
    unfold spec_tournament_train, Tournament.set_PHT. simpl.
    rewrite (t_PHTsize N t Ht). reflexivity.
Qed.

Lemma apply_move_length m sel :
  length (apply_move m (Tournament.PHT t) sel) = length (Tournament.PHT t).
Proof. destruct m; simpl; [apply bump_length | reflexivity]. Qed.

Lemma apply_move_counters m address :
  counters_ok (apply_move m (Tournament.PHT t) (Spec.sel N address)).
Proof.
  destruct m; simpl; [|apply Ht].
  apply bump_counters; [apply Ht | apply sel_in_table].
Qed.

Lemma spec_tournament_train_inv address outcome :
  Tournament_inv N (spec_tournament_train N t address outcome).
Proof.
  constructor; simpl; try apply Ht.
  - rewrite apply_move_length. apply Ht.
  - apply apply_move_counters.
  - apply spec_local_train_inv; [exact HN | apply Ht].
  - apply spec_gshare_train_inv; [exact HN | apply Ht].
Qed.

Lemma set_used_inv u :
  u = 0 \/ u = 1 \/ u = 2 -> Tournament_inv N (Tournament.set_used u t).
Proof.
  intros Hu. constructor; simpl; try apply Ht. exact Hu.
Qed.

End TournamentFacts.

(** ** Invariants along sequences of calls *)

Section CallSequences.

Context {T : Type} `{BP.BranchPredictorInterface T}.
Variable Inv : T -> Prop.
Hypothesis getPrediction_keeps :
  forall p branchPC, Inv p ->
    exists r p', BP.getPrediction p branchPC = Ok (r, p') /\ Inv p'.
Hypothesis train_keeps :
  forall p branchPC taken, Inv p ->
    exists p', BP.train p branchPC taken = Ok p' /\ Inv p'.

Lemma do_call_keeps p c : Inv p -> exists p', do_call p c = Ok p' /\ Inv p'.
Proof.
  intros Hp. destruct c as [branchPC | branchPC taken]; simpl.
  - destruct (getPrediction_keeps p branchPC Hp) as (r & p' & -> & Hp').
    simpl. eauto.
  - apply train_keeps, Hp.
Qed.

Lemma do_calls_keeps cs :
  forall p, Inv p -> exists p', do_calls p cs = Ok p' /\ Inv p'.
Proof.
  induction cs as [|c cs IH]; intros p Hp; simpl.
  - eauto.
  - destruct (do_call_keeps p c Hp) as (p1 & -> & Hp1). simpl.
    apply IH, Hp1.
Qed.

Lemma reachable_keeps constructed p :
  (forall p0, constructed = Ok p0 -> Inv p0) ->
  reachable constructed p -> Inv p.
Proof.
  intros Hnew (p0 & cs & Hc & Hrun).
  destruct (do_calls_keeps cs p0 (Hnew p0 Hc)) as (p' & Hrun' & Hp').
  congruence.
Qed.

End CallSequences.

(** ** Construction *)

Lemma init_PHTsize_valid uninit N :
  valid_size N -> init_PHTsize uninit N = IndexMask N.
Proof. intros [-> | [-> | ->]]; reflexivity. Qed.

Lemma to_UINT64_small n : 0 <= n < 2 ^ 64 -> to_UINT64 n = n.
Proof. intros Hn. apply Z.mod_small, Hn. Qed.

Lemma vector_int_limit_value : vector_int_limit = 4611686018427387903.
Proof. reflexivity. Qed.

Lemma in_range_UINT64 n :
  0 <= n <= vector_int_limit -> to_UINT64 n = n /\ fill_PHT n = Ok (push_back_loop (Z.to_nat n) []).
Proof.
  rewrite vector_int_limit_value. intros Hn. split.
  - apply to_UINT64_small. change (2 ^ 64) with 18446744073709551616. lia.
  - unfold fill_PHT. rewrite vector_int_limit_value.
    destruct (Z.leb_spec n 4611686018427387903); [reflexivity | lia].
Qed.

Lemma Local_new_in_range uninit n :
  0 <= n <= vector_int_limit ->
  Local.new uninit n =
  Ok (Local.mk n (init_PHTsize uninit n) (replicate 128 0)
        (push_back_loop (Z.to_nat n) [])).
Proof.
  intros Hn. destruct (in_range_UINT64 n Hn) as [E1 E2].
  unfold Local.new. rewrite E1, E2. reflexivity.
Qed.

Lemma Gshare_new_in_range uninit n :
  0 <= n <= vector_int_limit ->
  Gshare.new uninit n =
  Ok (Gshare.mk n (init_PHTsize uninit n) 0 (push_back_loop (Z.to_nat n) [])).
Proof.
  intros Hn. destruct (in_range_UINT64 n Hn) as [E1 E2].
  unfold Gshare.new. rewrite E1, E2. reflexivity.
Qed.

Lemma Tournament_new_in_range uninit uninit_l uninit_g n :
  0 <= n <= vector_int_limit ->
  Tournament.new uninit uninit_l uninit_g n =
  Ok (Tournament.mk n
        (Gshare.mk n (init_PHTsize uninit_g n) 0 (push_back_loop (Z.to_nat n) []))
        (Local.mk n (init_PHTsize uninit_l n) (replicate 128 0)
           (push_back_loop (Z.to_nat n) []))
        (init_PHTsize uninit n) 2 (push_back_loop (Z.to_nat n) [])).
Proof.
  intros Hn. destruct (in_range_UINT64 n Hn) as [E1 E2].
  unfold Tournament.new. rewrite E1, E2. cbn [bind].
  rewrite (Local_new_in_range uninit_l n Hn), (Gshare_new_in_range uninit_g n Hn).
  reflexivity.
Qed.

Lemma valid_size_in_range N : valid_size N -> 0 <= N <= vector_int_limit.
Proof.
  intros HN. pose proof (valid_size_range N HN).
  rewrite vector_int_limit_value. lia.
Qed.

Lemma Local_new_inv uninit N p :
  valid_size N -> Local.new uninit N = Ok p -> Local_inv N p.
Proof.
  intros HN Hnew. pose proof (valid_size_range N HN).
  rewrite (Local_new_in_range uninit N (valid_size_in_range N HN)) in Hnew.
  injection Hnew as <-.
  constructor; simpl.
  - reflexivity.
  - apply init_PHTsize_valid, HN.
  - reflexivity.
  - change (Forall (history_ok N) (replicate 128 0)).
    apply Forall_replicate. unfold history_ok, IndexMask. lia.
  - apply fresh_table_length. lia.
  - apply fresh_table_counters.
Qed.

Lemma Gshare_new_inv uninit N p :
  valid_size N -> Gshare.new uninit N = Ok p -> Gshare_inv N p.
Proof.
  intros HN Hnew. pose proof (valid_size_range N HN).
  rewrite (Gshare_new_in_range uninit N (valid_size_in_range N HN)) in Hnew.
  injection Hnew as <-.
  constructor; simpl.
  - reflexivity.
  - apply init_PHTsize_valid, HN.
  - unfold history_ok, IndexMask. lia.
  - apply fresh_table_length. lia.
  - apply fresh_table_counters.
Qed.

Lemma Tournament_new_inv uninit uninit_l uninit_g N t :
  valid_size N -> Tournament.new uninit uninit_l uninit_g N = Ok t ->
  Tournament_inv N t.
Proof.
  intros HN Hnew. pose proof (valid_size_range N HN).
  rewrite (Tournament_new_in_range uninit uninit_l uninit_g N
             (valid_size_in_range N HN)) in Hnew.
  injection Hnew as <-.
  constructor; simpl.
  - reflexivity.
  - apply init_PHTsize_valid, HN.
  - auto.
  - apply fresh_table_length. lia.
  - apply fresh_table_counters.
  - apply (Local_new_inv uninit_l); [exact HN|].
    apply Local_new_in_range, valid_size_in_range, HN.
  - apply (Gshare_new_inv uninit_g); [exact HN|].
    apply Gshare_new_in_range, valid_size_in_range, HN.
Qed.

(** ** Reachable states *)

Lemma Local_calls_keep N :
  valid_size N ->
  (forall p branchPC, Local_inv N p ->
     exists r p', BP.getPrediction p branchPC = Ok (r, p') /\ Local_inv N p') /\
  (forall p branchPC taken, Local_inv N p ->
     exists p', BP.train p branchPC taken = Ok p' /\ Local_inv N p').
Proof.
  intros HN. split.
  - intros p a Hp. simpl. rewrite (Local_getPrediction_spec N HN p Hp). eauto.
  - intros p a o Hp. simpl. rewrite (Local_train_spec N HN p Hp).
    eexists; split; [reflexivity | apply spec_local_train_inv; assumption].
Qed.

Lemma Gshare_calls_keep N :
  valid_size N ->
  (forall p branchPC, Gshare_inv N p ->
     exists r p', BP.getPrediction p branchPC = Ok (r, p') /\ Gshare_inv N p') /\
  (forall p branchPC taken, Gshare_inv N p ->
     exists p', BP.train p branchPC taken = Ok p' /\ Gshare_inv N p').
Proof.
  intros HN. split.
  - intros p a Hp. simpl. rewrite (Gshare_getPrediction_spec N HN p Hp). eauto.
  - intros p a o Hp. simpl. rewrite (Gshare_train_spec N HN p Hp).
    eexists; split; [reflexivity | apply spec_gshare_train_inv; assumption].
Qed.

Lemma Tournament_calls_keep N :
  valid_size N ->
  (forall t branchPC, Tournament_inv N t ->
     exists r t', BP.getPrediction t branchPC = Ok (r, t') /\ Tournament_inv N t') /\
  (forall t branchPC taken, Tournament_inv N t ->
     exists t', BP.train t branchPC taken = Ok t' /\ Tournament_inv N t').
Proof.
  intros HN. split.
  - intros t a Ht. simpl. rewrite (Tournament_getPrediction_spec N HN t Ht).
    destruct (2 <=? _); do 2 eexists; (split; [reflexivity|]);
      apply set_used_inv; auto.
  - intros t a o Ht. simpl. rewrite (Tournament_train_spec N HN t Ht).
    eexists; split; [reflexivity | apply spec_tournament_train_inv; assumption].
Qed.

Lemma Local_reachable_inv uninit N p :
  valid_size N -> reachable (Local.new uninit N) p -> Local_inv N p.
Proof.
  intros HN. destruct (Local_calls_keep N HN) as [Hg Ht].
  apply (reachable_keeps (Local_inv N) Hg Ht).
  intros p0. apply Local_new_inv, HN.
Qed.

Lemma Gshare_reachable_inv uninit N p :
  valid_size N -> reachable (Gshare.new uninit N) p -> Gshare_inv N p.
Proof.
  intros HN. destruct (Gshare_calls_keep N HN) as [Hg Ht].
  apply (reachable_keeps (Gshare_inv N) Hg Ht).
  intros p0. apply Gshare_new_inv, HN.
Qed.

Lemma Tournament_reachable_inv uninit uninit_l uninit_g N t :
  valid_size N ->
  reachable (Tournament.new uninit uninit_l uninit_g N) t ->
  Tournament_inv N t.
Proof.
  intros HN. destruct (Tournament_calls_keep N HN) as [Hg Ht].
  apply (reachable_keeps (Tournament_inv N) Hg Ht).
  intros p0. apply Tournament_new_inv, HN.
Qed.

(** ** Construction does not validate the table size *)

(** C2 (as the code has it): no constructor validates the table size.  For
    every number of entries from 0 to 4096, supported or not, the local,
    the gshare and the tournament constructor raise nothing and return a
    predictor whose tables, the selector and the tables of the tournament's
    sub-predictors included, hold that many counters, all equal to 3. *)
Theorem construction_without_validation
    uninit uninit_l uninit_g numberOfEntries :
  0 <= numberOfEntries <= 4096 ->
  exists l g t,
    Local.new uninit numberOfEntries = Ok l /\
    Gshare.new uninit numberOfEntries = Ok g /\
    Tournament.new uninit uninit_l uninit_g numberOfEntries = Ok t /\
    Local.numEntries l = numberOfEntries /\
    Gshare.numEntries g = numberOfEntries /\
    Tournament.numEntries t = numberOfEntries /\
    Local.PHT l = replicate (Z.to_nat numberOfEntries) 3 /\
    Gshare.PHT g = replicate (Z.to_nat numberOfEntries) 3 /\
    Tournament.PHT t = replicate (Z.to_nat numberOfEntries) 3 /\
    Local.PHT (Tournament.lbranch t) = replicate (Z.to_nat numberOfEntries) 3 /\
    Gshare.PHT (Tournament.gbranch t) = replicate (Z.to_nat numberOfEntries) 3.
Proof.
  intros Hn.
  assert (Hr : 0 <= numberOfEntries <= vector_int_limit)
    by (rewrite vector_int_limit_value; lia).
  do 3 eexists.
  split; [apply (Local_new_in_range uninit numberOfEntries Hr)|].
  split; [apply (Gshare_new_in_range uninit numberOfEntries Hr)|].
  split; [apply (Tournament_new_in_range uninit uninit_l uninit_g numberOfEntries Hr)|].
  cbn [Local.numEntries Gshare.numEntries Tournament.numEntries Local.PHT
       Gshare.PHT Tournament.PHT Tournament.lbranch Tournament.gbranch].
  rewrite fresh_table. repeat split.
Qed.

Lemma construction_without_validation_witness :
  exists l g t,
    Local.new 0 100 = Ok l /\
    Gshare.new 0 100 = Ok g /\
    Tournament.new 0 0 0 100 = Ok t /\
    Local.PHT l = replicate 100 3 /\
    Gshare.PHT g = replicate 100 3 /\
    Tournament.PHT t = replicate 100 3.
Proof.
  destruct (construction_without_validation 0 0 0 100 ltac:(lia))
    as (l & g & t & Hl & Hg & Ht & _ & _ & _ & Pl & Pg & Pt & _).
  exists l, g, t.
  split; [exact Hl|]. split; [exact Hg|]. split; [exact Ht|].
  split; [exact Pl|]. split; [exact Pg | exact Pt].
Defined.

(** C2 (as stated) fails: with table size 100 each of the three
    constructors returns a predictor with 100 counters instead of raising
    (shown here with arbitrary values in the uninitialised members, on
    which neither this nor the next fact depends), and the local predictor
    so obtained answers a prediction request. *)
Lemma construction_100_is_accepted :
  exists l g t,
    Local.new 21845 100 = Ok l /\
    Gshare.new 21845 100 = Ok g /\
    Tournament.new 21845 (-1) 32767 100 = Ok t /\
    length (Local.PHT l) = 100%nat /\
    length (Gshare.PHT g) = 100%nat /\
    length (Tournament.PHT t) = 100%nat /\
    BP.getPrediction l 4096 = Ok (true, l).
Proof.
  do 3 eexists.
  split; [reflexivity|]. split; [reflexivity|]. split; [reflexivity|].
  repeat split; vm_compute; reflexivity.
Qed.

(** C7: the scenario with table size 128 and the single address [0x1000]
    fed with the outcomes taken, taken, taken, not taken.  The first
    prediction is taken; the fourth training decrements the counter read at
    that step by exactly one, and leaves in the history register of the
    address's bucket the prior index shifted left by one and masked. *)
Theorem local_scenario_0x1000 :
  forall uninit,
  exists p0 p1 p2 p3 p4 r2 r3 r4,
    Local.new uninit 128 = Ok p0 /\
    AtConditionalBranch p0 4096 true = Ok (true, p1) /\
    AtConditionalBranch p1 4096 true = Ok (r2, p2) /\
    AtConditionalBranch p2 4096 true = Ok (r3, p3) /\
    AtConditionalBranch p3 4096 false = Ok (r4, p4) /\
    let bucket := Z.to_nat (Z.land 4096 127) in
    let prior_index := Local.LHR p3 !!! bucket in
    r4 = (2 <=? Local.PHT p3 !!! Z.to_nat prior_index) /\
    Local.PHT p4 !!! Z.to_nat prior_index =
      Local.PHT p3 !!! Z.to_nat prior_index - 1 /\
    Local.LHR p4 !!! bucket = Z.land (Z.shiftl prior_index 1) (IndexMask 128).
Proof.
  intros uninit. do 8 eexists.
  split; [reflexivity|].
  split; [vm_compute; reflexivity|].
  split; [vm_compute; reflexivity|].
  split; [vm_compute; reflexivity|].
  split; [vm_compute; reflexivity|].
  vm_compute. repeat split.
Qed.

(** ** The concrete states are reachable *)

Lemma demo_local_reachable : reachable (Local.new 0 128) demo_local.
Proof.
  eexists. exists [Train 4096 true; Train 4096 true; Train 4096 true].
  split; [reflexivity | vm_compute; reflexivity].
Qed.

Lemma demo_gshare_reachable : reachable (Gshare.new 0 128) demo_gshare.
Proof.
  eexists. exists [Train 1 false].
  split; [reflexivity | vm_compute; reflexivity].
Qed.

Lemma valid_128 : valid_size 128.
Proof. left; reflexivity. Qed.

(** C3: on every state of a gshare predictor of a supported size,
    [getPrediction] returns whether the counter at
    [(address & IndexMask) XOR GHR] is at least 2 and changes nothing, and
    [train] bumps the counter at that index with the outcome and sets the
    history to [((idx << 1) | outcome) & IndexMask]. *)
Theorem gshare_refines_spec N (p : Gshare.GshareBranchPredictor) :
  valid_size N -> Gshare_inv N p ->
  forall address outcome,
    let idx := Z.lxor (Z.land address (IndexMask N)) (Gshare.GHR p) in
    0 <= idx < N /\
    Gshare.getPrediction p address = Ok (2 <=? Gshare.PHT p !!! Z.to_nat idx, p) /\
    Gshare.train p address outcome =
      Ok {| Gshare.numEntries := Gshare.numEntries p;
            Gshare.PHTsize := Gshare.PHTsize p;
            Gshare.GHR :=
              Z.land (Z.lor (Z.shiftl idx 1) (if outcome then 1 else 0)) (IndexMask N);
            Gshare.PHT := Spec.bump (Gshare.PHT p) idx outcome |}.
Proof.
  intros HN Hp address outcome idx. split; [|split].
  - apply (gshare_idx_bounds N HN p Hp).
  - apply (Gshare_getPrediction_spec N HN p Hp).
  - apply (Gshare_train_spec N HN p Hp).
Qed.

Lemma gshare_refines_spec_witness :
  Gshare.getPrediction demo_gshare 1 = Ok (true, demo_gshare) /\
  Gshare.train demo_gshare 1 false =
    Ok (Gshare.mk 128 127 6 (<[3%nat := 2]> (<[1%nat := 2]> (replicate 128 3)))).
Proof.
  pose proof (gshare_refines_spec 128 demo_gshare valid_128
                (Gshare_reachable_inv 0 128 demo_gshare valid_128
                   demo_gshare_reachable) 1 false) as (_ & Hpred & Htrain).
  split; [exact Hpred | exact Htrain].
Defined.

(** C6: on every state of a local predictor of a supported size [N], the
    bucket is [address & 0b1111111] whatever [N] is; [getPrediction] returns
    whether the counter at [LHR[bucket] & IndexMask] is at least 2 and
    changes nothing; [train] bumps the counter at that index and sets
    [LHR[bucket]] to [((idx << 1) | outcome) & IndexMask]. *)
Theorem local_refines_spec N (p : Local.LocalBranchPredictor) :
  valid_size N -> Local_inv N p ->
  forall address outcome,
    let bucket := Z.land address 127 in
    let idx := Z.land (Local.LHR p !!! Z.to_nat bucket) (IndexMask N) in
    int_and_ADDRINT 127 address = bucket /\
    0 <= bucket < 128 /\
    0 <= idx < N /\
    Local.getPrediction p address = Ok (2 <=? Local.PHT p !!! Z.to_nat idx, p) /\
    Local.train p address outcome =
      Ok {| Local.numEntries := Local.numEntries p;
            Local.PHTsize := Local.PHTsize p;
            Local.LHR :=
              <[Z.to_nat bucket :=
                  Z.land (Z.lor (Z.shiftl idx 1) (if outcome then 1 else 0))
                         (IndexMask N)]> (Local.LHR p);
            Local.PHT := Spec.bump (Local.PHT p) idx outcome |}.
Proof.
  intros HN Hp address outcome bucket idx.
  split; [apply int_and_ADDRINT_127|].
  split; [pose proof (bucket_bounds address); unfold Spec.bucket, Spec.bucket_mask in *;
          subst bucket; lia|].
  split; [apply (local_idx_bounds N HN p Hp)|].
  split.
  - apply (Local_getPrediction_spec N HN p Hp).
  - apply (Local_train_spec N HN p Hp).
Qed.

Lemma local_refines_spec_witness :
  Local.getPrediction demo_local 4096 = Ok (true, demo_local) /\
  Local.train demo_local 4096 false =
    Ok (Local.mk 128 127 (<[0%nat := 14]> (replicate 128 0))
          (<[7%nat := 2]> (replicate 128 3))).
Proof.
  pose proof (local_refines_spec 128 demo_local valid_128
                (Local_reachable_inv 0 128 demo_local valid_128
                   demo_local_reachable) 4096 false) as (_ & _ & _ & Hpred & Htrain).
  split; [exact Hpred | exact Htrain].
Defined.

Lemma demo_tournament_reachable :
  reachable (Tournament.new 0 0 0 128) demo_tournament.
Proof.
  eexists. exists demo_calls.
  split; [reflexivity | vm_compute; reflexivity].
Qed.

Lemma sub_predictions N t address r g l :
  valid_size N -> Tournament_inv N t ->
  BP.getPrediction (Tournament.gbranch t) address = Ok (r, g) ->
  BP.getPrediction (Tournament.lbranch t) address = Ok (r, l) ->
  gshare_result N (Tournament.gbranch t) address = r /\
  local_result N (Tournament.lbranch t) address = r.
Proof.
  intros HN Ht Hg Hl.
  change (Gshare.getPrediction (Tournament.gbranch t) address = Ok (r, g)) in Hg.
  change (Local.getPrediction (Tournament.lbranch t) address = Ok (r, l)) in Hl.
  rewrite (Gshare_getPrediction_spec N HN _ (t_gbranch N t Ht)) in Hg.
  rewrite (Local_getPrediction_spec N HN _ (t_lbranch N t Ht)) in Hl.
  unfold gshare_result, local_result. split; congruence.
Qed.

(** C1 (as the code has it): when the two sub-predictors agree on a branch,
    [train] leaves every selector counter but the one of the branch's bucket
    unchanged, and leaves that one unchanged too when the common prediction
    was wrong or when [used] holds neither 0 nor 1.  When the common
    prediction was right, that counter moves one saturating step towards
    the sub-predictor recorded in [used]: up (at most to 3) for gshare,
    down (at least to 0) for local. *)
Theorem tournament_agreement_selector
    N uninit uninit_l uninit_g t address outcome r g l :
  valid_size N ->
  reachable (Tournament.new uninit uninit_l uninit_g N) t ->
  BP.getPrediction (Tournament.gbranch t) address = Ok (r, g) ->
  BP.getPrediction (Tournament.lbranch t) address = Ok (r, l) ->
  exists t',
    Tournament.train t address outcome = Ok t' /\
    let sel := Z.to_nat (Z.land address (IndexMask N)) in
    let c := Tournament.PHT t !!! sel in
    (forall j, j <> sel -> Tournament.PHT t' !! j = Tournament.PHT t !! j) /\
    Tournament.PHT t' !!! sel =
      if Bool.eqb r outcome then
        if Tournament.used t =? 0 then Z.min 3 (c + 1)
        else if Tournament.used t =? 1 then Z.max 0 (c - 1)
        else c
      else c.
Proof.
  intros HN Hreach Hg Hl.
  pose proof (Tournament_reachable_inv _ _ _ N t HN Hreach) as Ht.
  destruct (sub_predictions N t address r g l HN Ht Hg Hl) as [Eg El].
  rewrite (Tournament_train_spec N HN t Ht).
  eexists; split; [reflexivity|].
  cbv zeta. unfold spec_tournament_train. cbn [Tournament.PHT].
  rewrite Eg, El. fold (Spec.sel N address).
  pose proof (sel_in_table N HN t Ht address) as Hi.
  pose proof (t_PHT_counters N t Ht) as Hc.
  pose proof (counter_bounds _ _ Hc Hi) as Hb.
  unfold selector_move. rewrite Bool.eqb_reflx.
  destruct (Tournament.used t =? 0) eqn:E0; simpl orb.
  - destruct (Bool.eqb r outcome); unfold apply_move.
    + split; [intros j Hj; apply bump_lookup_ne, Hj|].
      rewrite bump_lookup_eq by assumption. reflexivity.
    + split; [reflexivity | reflexivity].
  - destruct (Tournament.used t =? 1) eqn:E1.
    + destruct (Bool.eqb r outcome); unfold apply_move.
      * split; [intros j Hj; apply bump_lookup_ne, Hj|].
        rewrite bump_lookup_eq by assumption. reflexivity.
      * split; reflexivity.
    + unfold apply_move. destruct (Bool.eqb r outcome); split; reflexivity.
Qed.

Lemma tournament_agreement_selector_witness :
  exists t',
    Tournament.train demo_tournament 1 true = Ok t' /\
    Tournament.PHT demo_tournament !!! 1%nat = 2 /\
    Tournament.PHT t' !!! 1%nat = 3.
Proof.
  destruct (tournament_agreement_selector 128 0 0 0 demo_tournament 1 true true
              (Tournament.gbranch demo_tournament)
              (Tournament.lbranch demo_tournament)
              valid_128 demo_tournament_reachable eq_refl eq_refl)
    as (t' & Htrain & _ & Hsel).
  exists t'. split; [exact Htrain|]. split; [reflexivity | exact Hsel].
Defined.

(** C1 (as stated) fails: after five branches, each predicted and then
    trained, and the prediction of a sixth at address 1, both sub-predictors
    predict taken for address 1; training it as taken moves the selector
    counter of bucket 1 from 2 to 3. *)
Lemma agreement_moves_selector :
  exists t0 t5 t t',
    Tournament.new 0 0 0 128 = Ok t0 /\
    run_trace t0 [(1, false); (1, false); (1, false); (2, true); (3, true)] = Ok t5 /\
    BP.getPrediction t5 1 = Ok (true, t) /\
    BP.getPrediction (Tournament.gbranch t) 1 = Ok (true, Tournament.gbranch t) /\
    BP.getPrediction (Tournament.lbranch t) 1 = Ok (true, Tournament.lbranch t) /\
    Tournament.train t 1 true = Ok t' /\
    Tournament.PHT t !! Z.to_nat (Z.land 1 (IndexMask 128)) = Some 2 /\
    Tournament.PHT t' !! Z.to_nat (Z.land 1 (IndexMask 128)) = Some 3.
Proof.
  do 4 eexists.
  split; [reflexivity|].
  split; [vm_compute; reflexivity|].
  split; [vm_compute; reflexivity|].
  split; [vm_compute; reflexivity|].
  split; [vm_compute; reflexivity|].
  split; [vm_compute; reflexivity|].
  split; vm_compute; reflexivity.
Qed.

(** C4: in every reachable state, [train] of the tournament predictor
    queries both sub-predictors (which changes neither), trains both with
    the real outcome whatever [used] holds, and updates the selector from
    the two predictions made before the training; afterwards each
    sub-predictor is in the state its own [train] reaches on the same
    address and outcome. *)
Theorem tournament_trains_both
    N uninit uninit_l uninit_g t address outcome :
  valid_size N ->
  reachable (Tournament.new uninit uninit_l uninit_g N) t ->
  exists gresult lresult g' l' t',
    BP.getPrediction (Tournament.gbranch t) address =
      Ok (gresult, Tournament.gbranch t) /\
    BP.getPrediction (Tournament.lbranch t) address =
      Ok (lresult, Tournament.lbranch t) /\
    BP.train (Tournament.gbranch t) address outcome = Ok g' /\
    BP.train (Tournament.lbranch t) address outcome = Ok l' /\
    Tournament.train t address outcome = Ok t' /\
    Tournament.gbranch t' = g' /\
    Tournament.lbranch t' = l' /\
    Tournament.used t' = Tournament.used t /\
    Tournament.PHT t' =
      apply_move (selector_move (Tournament.used t) gresult lresult outcome)
        (Tournament.PHT t) (Z.land address (IndexMask N)).
Proof.
  intros HN Hreach.
  pose proof (Tournament_reachable_inv _ _ _ N t HN Hreach) as Ht.
  exists (gshare_result N (Tournament.gbranch t) address),
         (local_result N (Tournament.lbranch t) address),
         (spec_gshare_train N (Tournament.gbranch t) address outcome),
         (spec_local_train N (Tournament.lbranch t) address outcome),
         (spec_tournament_train N t address outcome).
  split; [apply (Gshare_getPrediction_spec N HN), Ht|].
  split; [apply (Local_getPrediction_spec N HN), Ht|].
  split; [apply (Gshare_train_spec N HN), Ht|].
  split; [apply (Local_train_spec N HN), Ht|].
  split; [apply (Tournament_train_spec N HN), Ht|].
  repeat split.
Qed.

Lemma tournament_trains_both_witness :
  exists gresult lresult g' l' t',
    Gshare.train (Tournament.gbranch demo_tournament) 1 false = Ok g' /\
    Local.train (Tournament.lbranch demo_tournament) 1 false = Ok l' /\
    Tournament.train demo_tournament 1 false = Ok t' /\
    Tournament.gbranch t' = g' /\
    Tournament.lbranch t' = l' /\
    Tournament.PHT t' =
      apply_move (selector_move 0 gresult lresult false)
        (Tournament.PHT demo_tournament) 1.
Proof.
  destruct (tournament_trains_both 128 0 0 0 demo_tournament 1 false
              valid_128 demo_tournament_reachable)
    as (gresult & lresult & g' & l' & t' & _ & _ & Hg & Hl & Ht & Eg & El & _ & Hsel).
  exists gresult, lresult, g', l', t'.
  split; [exact Hg|]. split; [exact Hl|]. split; [exact Ht|].
  split; [exact Eg|]. split; [exact El | exact Hsel].
Defined.

(** ** Training with the sentinel in [used] *)

Lemma train_with_sentinel N t address outcome :
  valid_size N -> Tournament_inv N t -> Tournament.used t = 2 ->
  exists t',
    Tournament.train t address outcome = Ok t' /\
    Tournament_inv N t' /\
    Tournament.used t' = 2 /\
    Tournament.PHT t' = Tournament.PHT t /\
    Gshare.train (Tournament.gbranch t) address outcome = Ok (Tournament.gbranch t') /\
    Local.train (Tournament.lbranch t) address outcome = Ok (Tournament.lbranch t').
Proof.
  intros HN Ht Hu.
  exists (spec_tournament_train N t address outcome).
  split; [apply (Tournament_train_spec N HN), Ht|].
  split; [apply spec_tournament_train_inv; assumption|].
  split; [exact Hu|].
  split.
  - unfold spec_tournament_train. cbn [Tournament.PHT]. rewrite Hu. reflexivity.
  - split.
    + apply (Gshare_train_spec N HN), Ht.
    + apply (Local_train_spec N HN), Ht.
Qed.

Lemma trains_with_sentinel N tr :
  valid_size N ->
  forall t, Tournament_inv N t -> Tournament.used t = 2 ->
  exists t',
    do_calls t (train_calls tr) = Ok t' /\
    Tournament.used t' = 2 /\
    Tournament.PHT t' = Tournament.PHT t /\
    do_calls (Tournament.gbranch t) (train_calls tr) = Ok (Tournament.gbranch t') /\
    do_calls (Tournament.lbranch t) (train_calls tr) = Ok (Tournament.lbranch t').
Proof.
  intros HN. induction tr as [|[address outcome] tr IH]; intros t Ht Hu.
  - exists t. repeat split; assumption.
  - destruct (train_with_sentinel N t address outcome HN Ht Hu)
      as (t1 & Htrain & Ht1 & Hu1 & Hsel1 & Hg1 & Hl1).
    destruct (IH t1 Ht1 Hu1) as (t' & Hrun & Hu' & Hsel' & Hg' & Hl').
    exists t'.
    cbn [train_calls map do_calls do_call fst snd BP.train
         Tournament_BranchPredictorInterface Gshare_BranchPredictorInterface
         Local_BranchPredictorInterface].
    rewrite Htrain, Hg1, Hl1. cbn [bind].
    repeat split; try assumption. congruence.
Qed.

(** C10: a freshly constructed tournament predictor holds the sentinel 2 in
    [used]; as long as only [train] is called, whatever the addresses and
    outcomes, the selector table stays as constructed and [used] stays 2,
    while both sub-predictors are trained with every outcome. *)
Theorem train_before_any_prediction
    N uninit uninit_l uninit_g t0 (tr : list (Z * bool)) :
  valid_size N ->
  Tournament.new uninit uninit_l uninit_g N = Ok t0 ->
  Tournament.used t0 = 2 /\
  exists t,
    do_calls t0 (train_calls tr) = Ok t /\
    Tournament.PHT t = Tournament.PHT t0 /\
    Tournament.used t = 2 /\
    do_calls (Tournament.gbranch t0) (train_calls tr) = Ok (Tournament.gbranch t) /\
    do_calls (Tournament.lbranch t0) (train_calls tr) = Ok (Tournament.lbranch t).
Proof.
  intros HN Hnew.
  pose proof (Tournament_new_inv _ _ _ N t0 HN Hnew) as Ht0.
  assert (Hu : Tournament.used t0 = 2).
  { rewrite (Tournament_new_in_range uninit uninit_l uninit_g N
               (valid_size_in_range N HN)) in Hnew.
    injection Hnew as <-. reflexivity. }
  split; [exact Hu|].
  destruct (trains_with_sentinel N tr HN t0 Ht0 Hu) as (t & H1 & H2 & H3 & H4 & H5).
  exists t. repeat split; assumption.
Qed.

Lemma train_before_any_prediction_witness :
  Tournament.used fresh_tournament = 2 /\
  exists t,
    do_calls fresh_tournament (train_calls [(1, false); (1, false); (1, false)]) = Ok t /\
    Tournament.PHT t = Tournament.PHT fresh_tournament /\
    Tournament.used t = 2 /\
    do_calls (Tournament.gbranch fresh_tournament)
      (train_calls [(1, false); (1, false); (1, false)]) = Ok (Tournament.gbranch t) /\
    do_calls (Tournament.lbranch fresh_tournament)
      (train_calls [(1, false); (1, false); (1, false)]) = Ok (Tournament.lbranch t).
Proof.
  exact (train_before_any_prediction 128 0 0 0 fresh_tournament
           [(1, false); (1, false); (1, false)] valid_128 eq_refl).
Defined.

(** ** The indices of the code and of the specification *)

Lemma local_index_spec N l branchPC :
  valid_size N -> Local_inv N l ->
  local_index l branchPC = Spec.local_idx N (Local.LHR l) branchPC.
Proof.
  intros HN Hl. unfold local_index.
  rewrite int_and_ADDRINT_127. symmetry. apply local_idx_code; assumption.
Qed.

Lemma gshare_index_spec N g branchPC :
  valid_size N -> Gshare_inv N g ->
  gshare_index g branchPC = Spec.gshare_idx N (Gshare.GHR g) branchPC.
Proof.
  intros HN Hg. unfold gshare_index.
  rewrite (g_PHTsize N g Hg), int_and_ADDRINT_mask by exact HN. reflexivity.
Qed.

Lemma selector_index_spec N t branchPC :
  valid_size N -> Tournament_inv N t ->
  selector_index t branchPC = Spec.sel N branchPC.
Proof.
  intros HN Ht. unfold selector_index.
  rewrite (t_PHTsize N t Ht), int_and_ADDRINT_mask by exact HN. reflexivity.
Qed.

Lemma Local_inv_indices N l :
  valid_size N -> Local_inv N l -> local_indices_ok N l.
Proof.
  intros HN Hl. split; [apply Hl|]. split; [apply Hl|].
  intros branchPC. rewrite (local_index_spec N) by assumption.
  split; [apply local_idx_bounds; assumption|].
  rewrite at_in_range by (apply (local_idx_in_table N); assumption). eauto.
Qed.

Lemma Gshare_inv_indices N g :
  valid_size N -> Gshare_inv N g -> gshare_indices_ok N g.
Proof.
  intros HN Hg. split; [apply Hg|]. split; [apply Hg|].
  intros branchPC. rewrite (gshare_index_spec N) by assumption.
  split; [apply gshare_idx_bounds; assumption|].
  rewrite at_in_range by (apply (gshare_idx_in_table N); assumption). eauto.
Qed.

Lemma Tournament_inv_indices N t :
  valid_size N -> Tournament_inv N t -> selector_indices_ok N t.
Proof.
  intros HN Ht. split; [apply Ht|].
  intros branchPC. rewrite (selector_index_spec N) by assumption.
  split; [apply sel_bounds; assumption|].
  rewrite at_in_range by (apply (sel_in_table N); assumption). eauto.
Qed.

Lemma inv_never_raises {T} `{BP.BranchPredictorInterface T} (Inv : T -> Prop) :
  (forall p branchPC, Inv p ->
     exists r p', BP.getPrediction p branchPC = Ok (r, p') /\ Inv p') ->
  (forall p branchPC taken, Inv p ->
     exists p', BP.train p branchPC taken = Ok p' /\ Inv p') ->
  forall p, Inv p -> never_raises p.
Proof.
  intros Hg Ht p Hp branchPC. split.
  - destruct (Hg p branchPC Hp) as (r & p' & E & _). eauto.
  - intros taken. destruct (Ht p branchPC taken Hp) as (p' & E & _). eauto.
Qed.

(** C9: for a supported size [N], in every reachable state of each
    predictor the global history and every local history register lie in
    [0, IndexMask], every index computed by [getPrediction] and [train]
    lies in [0, N) with [N] the length of the table, [vector::at] returns,
    and no call raises; this holds for the tournament's selector and for
    both of its sub-predictors.  So every sequence of calls on a
    constructed predictor runs to its end. *)
Theorem indices_in_range N uninit uninit_l uninit_g :
  valid_size N ->
  (forall l, reachable (Local.new uninit N) l ->
     local_indices_ok N l /\ never_raises l) /\
  (forall g, reachable (Gshare.new uninit N) g ->
     gshare_indices_ok N g /\ never_raises g) /\
  (forall t, reachable (Tournament.new uninit uninit_l uninit_g N) t ->
     selector_indices_ok N t /\
     local_indices_ok N (Tournament.lbranch t) /\
     gshare_indices_ok N (Tournament.gbranch t) /\
     never_raises t) /\
  (forall cs, exists l0 l,
     Local.new uninit N = Ok l0 /\ do_calls l0 cs = Ok l) /\
  (forall cs, exists g0 g,
     Gshare.new uninit N = Ok g0 /\ do_calls g0 cs = Ok g) /\
  (forall cs, exists t0 t,
     Tournament.new uninit uninit_l uninit_g N = Ok t0 /\ do_calls t0 cs = Ok t).
Proof.
  intros HN.
  destruct (Local_calls_keep N HN) as [Lg Lt].
  destruct (Gshare_calls_keep N HN) as [Gg Gt].
  destruct (Tournament_calls_keep N HN) as [Tg Tt].
  split; [|split; [|split; [|split; [|split]]]].
  - intros l Hl. pose proof (Local_reachable_inv _ N l HN Hl) as Hinv.
    split; [apply Local_inv_indices; assumption|].
    apply (inv_never_raises (Local_inv N)); assumption.
  - intros g Hg. pose proof (Gshare_reachable_inv _ N g HN Hg) as Hinv.
    split; [apply Gshare_inv_indices; assumption|].
    apply (inv_never_raises (Gshare_inv N)); assumption.
  - intros t Ht. pose proof (Tournament_reachable_inv _ _ _ N t HN Ht) as Hinv.
    split; [apply Tournament_inv_indices; assumption|].
    split; [apply Local_inv_indices; [assumption | apply Hinv]|].
    split; [apply Gshare_inv_indices; [assumption | apply Hinv]|].
    apply (inv_never_raises (Tournament_inv N)); assumption.
  - intros cs. eexists.
    destruct (do_calls_keeps (Local_inv N) Lg Lt cs _
                (Local_new_inv uninit N _ HN
                   (Local_new_in_range uninit N (valid_size_in_range N HN))))
      as (l & E & _).
    exists l. split; [apply Local_new_in_range, valid_size_in_range, HN | exact E].
  - intros cs. eexists.
    destruct (do_calls_keeps (Gshare_inv N) Gg Gt cs _
                (Gshare_new_inv uninit N _ HN
                   (Gshare_new_in_range uninit N (valid_size_in_range N HN))))
      as (g & E & _).
    exists g. split; [apply Gshare_new_in_range, valid_size_in_range, HN | exact E].
  - intros cs. eexists.
    destruct (do_calls_keeps (Tournament_inv N) Tg Tt cs _
                (Tournament_new_inv uninit uninit_l uninit_g N _ HN
                   (Tournament_new_in_range uninit uninit_l uninit_g N
                      (valid_size_in_range N HN))))
      as (t & E & _).
    exists t. split; [apply Tournament_new_in_range, valid_size_in_range, HN | exact E].
Qed.

Lemma indices_in_range_witness :
  selector_indices_ok 128 demo_tournament /\
  local_indices_ok 128 (Tournament.lbranch demo_tournament) /\
  gshare_indices_ok 128 (Tournament.gbranch demo_tournament) /\
  never_raises demo_tournament.
Proof.
  destruct (indices_in_range 128 0 0 0 valid_128) as (_ & _ & Ht & _).
  exact (Ht demo_tournament demo_tournament_reachable).
Defined.

(** ** Saturation *)

Lemma bump_saturated (v : list Z) index (outcome : bool) :
  v !!! Z.to_nat index = (if outcome then 3 else 0) ->
  Spec.bump v index outcome = v.
Proof.
  intros E. unfold Spec.bump. rewrite E. destruct outcome; reflexivity.
Qed.

Lemma strengthen_at_top (v : list Z) sel :
  0 <= sel -> v !! Z.to_nat sel = Some 3 -> Tournament.strengthen v sel = Ok v.
Proof.
  intros Hs E. unfold Tournament.strengthen, at_.
  destruct (Z.ltb_spec sel 0); [lia|]. rewrite E. reflexivity.
Qed.

Lemma weaken_at_bottom (v : list Z) sel :
  0 <= sel -> v !! Z.to_nat sel = Some 0 -> Tournament.weaken v sel = Ok v.
Proof.
  intros Hs E. unfold Tournament.weaken, at_.
  destruct (Z.ltb_spec sel 0); [lia|]. rewrite E. reflexivity.
Qed.

(** C5: for a supported size, every table of every predictor (the
    tournament's selector and the tables of its sub-predictors included) is
    constructed with all counters at 3; in every reachable state all
    counters lie in [0,3]; training taken on a counter at 3, and training
    not taken on a counter at 0, leaves the table as it is, and so do the
    selector's increment at 3 and decrement at 0. *)
Theorem counters_saturate N uninit uninit_l uninit_g :
  valid_size N ->
  (exists l0 g0 t0,
     Local.new uninit N = Ok l0 /\
     Gshare.new uninit N = Ok g0 /\
     Tournament.new uninit uninit_l uninit_g N = Ok t0 /\
     Local.PHT l0 = replicate (Z.to_nat N) 3 /\
     Gshare.PHT g0 = replicate (Z.to_nat N) 3 /\
     Tournament.PHT t0 = replicate (Z.to_nat N) 3 /\
     Local.PHT (Tournament.lbranch t0) = replicate (Z.to_nat N) 3 /\
     Gshare.PHT (Tournament.gbranch t0) = replicate (Z.to_nat N) 3) /\
  (forall l, reachable (Local.new uninit N) l ->
     Forall (fun c => 0 <= c <= 3) (Local.PHT l)) /\
  (forall g, reachable (Gshare.new uninit N) g ->
     Forall (fun c => 0 <= c <= 3) (Gshare.PHT g)) /\
  (forall t, reachable (Tournament.new uninit uninit_l uninit_g N) t ->
     Forall (fun c => 0 <= c <= 3) (Tournament.PHT t) /\
     Forall (fun c => 0 <= c <= 3) (Local.PHT (Tournament.lbranch t)) /\
     Forall (fun c => 0 <= c <= 3) (Gshare.PHT (Tournament.gbranch t))) /\
  (forall l branchPC (taken : bool),
     reachable (Local.new uninit N) l ->
     Local.PHT l !!! Z.to_nat (local_index l branchPC) = (if taken then 3 else 0) ->
     exists l', Local.train l branchPC taken = Ok l' /\ Local.PHT l' = Local.PHT l) /\
  (forall g branchPC (taken : bool),
     reachable (Gshare.new uninit N) g ->
     Gshare.PHT g !!! Z.to_nat (gshare_index g branchPC) = (if taken then 3 else 0) ->
     exists g', Gshare.train g branchPC taken = Ok g' /\ Gshare.PHT g' = Gshare.PHT g) /\
  (forall (v : list Z) sel, 0 <= sel ->
     (v !! Z.to_nat sel = Some 3 -> Tournament.strengthen v sel = Ok v) /\
     (v !! Z.to_nat sel = Some 0 -> Tournament.weaken v sel = Ok v)).
Proof.
  intros HN.
  split; [|split; [|split; [|split; [|split; [|split]]]]].
  - pose proof (valid_size_in_range N HN) as Hr.
    do 3 eexists.
    split; [apply (Local_new_in_range uninit N Hr)|].
    split; [apply (Gshare_new_in_range uninit N Hr)|].
    split; [apply (Tournament_new_in_range uninit uninit_l uninit_g N Hr)|].
    cbn [Local.PHT Gshare.PHT Tournament.PHT Tournament.lbranch Tournament.gbranch].
    rewrite fresh_table. repeat split.
  - intros l Hl. apply (Local_reachable_inv _ N l HN Hl).
  - intros g Hg. apply (Gshare_reachable_inv _ N g HN Hg).
  - intros t Ht. pose proof (Tournament_reachable_inv _ _ _ N t HN Ht) as Hinv.
    split; [apply Hinv|]. split; apply Hinv.
  - intros l branchPC taken Hl E.
    pose proof (Local_reachable_inv _ N l HN Hl) as Hinv.
    rewrite (local_index_spec N) in E by assumption.
    rewrite (Local_train_spec N HN l Hinv).
    eexists; split; [reflexivity|]. apply bump_saturated, E.
  - intros g branchPC taken Hg E.
    pose proof (Gshare_reachable_inv _ N g HN Hg) as Hinv.
    rewrite (gshare_index_spec N) in E by assumption.
    rewrite (Gshare_train_spec N HN g Hinv).
    eexists; split; [reflexivity|]. apply bump_saturated, E.
  - intros v sel Hs. split.
    + apply strengthen_at_top, Hs.
    + apply weaken_at_bottom, Hs.
Qed.

Lemma counters_saturate_witness :
  Forall (fun c => 0 <= c <= 3) (Tournament.PHT demo_tournament) /\
  Forall (fun c => 0 <= c <= 3) (Local.PHT (Tournament.lbranch demo_tournament)) /\
  Forall (fun c => 0 <= c <= 3) (Gshare.PHT (Tournament.gbranch demo_tournament)) /\
  exists l', Local.train demo_local 4096 true = Ok l' /\
             Local.PHT l' = Local.PHT demo_local.
Proof.
  destruct (counters_saturate 128 0 0 0 valid_128)
    as (_ & _ & _ & Ht & Hl & _).
  destruct (Ht demo_tournament demo_tournament_reachable) as (H1 & H2 & H3).
  split; [exact H1|]. split; [exact H2|]. split; [exact H3|].
  exact (Hl demo_local 4096 true demo_local_reachable eq_refl).
Defined.

(** ** Predictions and the state *)

Lemma predictions_keep_state {T} `{BP.BranchPredictorInterface T} (p : T) :
  (forall branchPC, exists r, BP.getPrediction p branchPC = Ok (r, p)) ->
  forall addresses, do_calls p (predict_calls addresses) = Ok p.
Proof.
  intros Hp addresses. induction addresses as [|a addresses IH]; [reflexivity|].
  cbn [predict_calls map do_calls do_call].
  destruct (Hp a) as (r & ->). cbn [bind]. exact IH.
Qed.

Lemma set_used_set_used u v t :
  Tournament.set_used u (Tournament.set_used v t) = Tournament.set_used u t.
Proof. reflexivity. Qed.

Lemma tournament_predictions_keep_tables N t :
  valid_size N -> Tournament_inv N t ->
  forall addresses, exists u,
    do_calls t (predict_calls addresses) = Ok (Tournament.set_used u t).
Proof.
  intros HN Ht addresses. revert t Ht.
  induction addresses as [|a addresses IH]; intros t Ht.
  - exists (Tournament.used t). destruct t; reflexivity.
  - cbn [predict_calls map do_calls do_call BP.getPrediction
         Tournament_BranchPredictorInterface].
    rewrite (Tournament_getPrediction_spec N HN t Ht).
    destruct (2 <=? _); cbn [bind].
    + destruct (IH (Tournament.set_used 0 t)) as (u & E);
        [apply set_used_inv; auto|].
      exists u. exact E.
    + destruct (IH (Tournament.set_used 1 t)) as (u & E);
        [apply set_used_inv; auto|].
      exists u. exact E.
Qed.

Lemma trains_keep_used N tr :
  valid_size N ->
  forall t, Tournament_inv N t ->
  exists t',
    do_calls t (train_calls tr) = Ok t' /\
    Tournament.used t' = Tournament.used t /\
    Tournament_inv N t'.
Proof.
  intros HN. induction tr as [|[a o] tr IH]; intros t Ht.
  - exists t. split; [reflexivity|]. split; [reflexivity | exact Ht].
  - destruct (IH (spec_tournament_train N t a o)
                (spec_tournament_train_inv N HN t Ht a o)) as (t' & Hrun & Hu & Ht').
    exists t'.
    cbn [train_calls map do_calls do_call fst snd BP.train
         Tournament_BranchPredictorInterface].
    rewrite (Tournament_train_spec N HN t Ht). cbn [bind].
    split; [exact Hrun|]. split; [exact Hu | exact Ht'].
Qed.

(** C8 (as the code has it): for a supported size and every reachable
    state, [getPrediction] of the local and of the gshare predictor returns
    the state it was given, so any number of predictions changes nothing.
    [getPrediction] of the tournament predictor leaves the selector table
    and both sub-predictors as they are, but stores in the member [used]
    which sub-predictor answered (0 for gshare when the selector counter is
    at least 2, else 1 for local); asking again for the same address
    changes nothing more.  The stored value persists: no [train] writes
    [used], so after a [getPrediction] and any number of [train] calls
    [used] still holds what that [getPrediction] stored, until the next
    [getPrediction] overwrites it. *)
Theorem getPrediction_frame N uninit uninit_l uninit_g :
  valid_size N ->
  (forall l, reachable (Local.new uninit N) l ->
     (forall branchPC, exists r, BP.getPrediction l branchPC = Ok (r, l)) /\
     (forall addresses, do_calls l (predict_calls addresses) = Ok l)) /\
  (forall g, reachable (Gshare.new uninit N) g ->
     (forall branchPC, exists r, BP.getPrediction g branchPC = Ok (r, g)) /\
     (forall addresses, do_calls g (predict_calls addresses) = Ok g)) /\
  (forall t, reachable (Tournament.new uninit uninit_l uninit_g N) t ->
     (forall branchPC,
        let c := Tournament.PHT t !!! Z.to_nat (Z.land branchPC (IndexMask N)) in
        let t' := Tournament.set_used (if 2 <=? c then 0 else 1) t in
        exists r,
          BP.getPrediction t branchPC = Ok (r, t') /\
          BP.getPrediction t' branchPC = Ok (r, t')) /\
     (forall addresses, exists u,
        do_calls t (predict_calls addresses) = Ok (Tournament.set_used u t)) /\
     (forall tr, exists t',
        do_calls t (train_calls tr) = Ok t' /\
        Tournament.used t' = Tournament.used t) /\
     (forall branchPC tr,
        let c := Tournament.PHT t !!! Z.to_nat (Z.land branchPC (IndexMask N)) in
        exists r t1 t2,
          BP.getPrediction t branchPC = Ok (r, t1) /\
          do_calls t1 (train_calls tr) = Ok t2 /\
          Tournament.used t2 = (if 2 <=? c then 0 else 1))).
Proof.
  intros HN. split; [|split].
  - intros l Hl. pose proof (Local_reachable_inv _ N l HN Hl) as Hinv.
    assert (Hone : forall branchPC, exists r, BP.getPrediction l branchPC = Ok (r, l)).
    { intros branchPC. eexists. apply (Local_getPrediction_spec N HN l Hinv). }
    split; [exact Hone | apply predictions_keep_state, Hone].
  - intros g Hg. pose proof (Gshare_reachable_inv _ N g HN Hg) as Hinv.
    assert (Hone : forall branchPC, exists r, BP.getPrediction g branchPC = Ok (r, g)).
    { intros branchPC. eexists. apply (Gshare_getPrediction_spec N HN g Hinv). }
    split; [exact Hone | apply predictions_keep_state, Hone].
  - intros t Ht. pose proof (Tournament_reachable_inv _ _ _ N t HN Ht) as Hinv.
    split; [|split; [apply (tournament_predictions_keep_tables N t HN Hinv)|split]].
    + intros branchPC. cbv zeta. fold (Spec.sel N branchPC).
      cbn [BP.getPrediction Tournament_BranchPredictorInterface].
      rewrite (Tournament_getPrediction_spec N HN t Hinv).
      destruct (2 <=? Tournament.PHT t !!! Z.to_nat (Spec.sel N branchPC)) eqn:E.
      * eexists. split; [reflexivity|].
        rewrite (Tournament_getPrediction_spec N HN)
          by (apply set_used_inv; auto).
        cbn [Tournament.PHT Tournament.set_used Tournament.gbranch].
        rewrite E. reflexivity.
      * eexists. split; [reflexivity|].
        rewrite (Tournament_getPrediction_spec N HN)
          by (apply set_used_inv; auto).
        cbn [Tournament.PHT Tournament.set_used Tournament.lbranch].
        rewrite E. reflexivity.
    + intros tr. destruct (trains_keep_used N tr HN t Hinv) as (t' & Hrun & Hu & _).
      eauto.
    + intros branchPC tr. cbv zeta. fold (Spec.sel N branchPC).
      cbn [BP.getPrediction Tournament_BranchPredictorInterface].
      rewrite (Tournament_getPrediction_spec N HN t Hinv).
      destruct (2 <=? Tournament.PHT t !!! Z.to_nat (Spec.sel N branchPC)).
      * destruct (trains_keep_used N tr HN (Tournament.set_used 0 t))
          as (t2 & Hrun & Hu & _); [apply set_used_inv; auto|].
        do 3 eexists. split; [reflexivity|]. split; [exact Hrun | exact Hu].
      * destruct (trains_keep_used N tr HN (Tournament.set_used 1 t))
          as (t2 & Hrun & Hu & _); [apply set_used_inv; auto|].
        do 3 eexists. split; [reflexivity|]. split; [exact Hrun | exact Hu].
Qed.

Lemma getPrediction_frame_witness :
  (exists r,
     BP.getPrediction fresh_tournament 1 = Ok (r, Tournament.set_used 0 fresh_tournament) /\
     BP.getPrediction (Tournament.set_used 0 fresh_tournament) 1 =
       Ok (r, Tournament.set_used 0 fresh_tournament)) /\
  (exists r t1 t2,
     BP.getPrediction fresh_tournament 1 = Ok (r, t1) /\
     do_calls t1 (train_calls [(1, false); (2, true)]) = Ok t2 /\
     Tournament.used t2 = 0).
Proof.
  destruct (getPrediction_frame 128 0 0 0 valid_128) as (_ & _ & Ht).
  destruct (Ht fresh_tournament) as (Hone & _ & _ & Hpersist).
  - exists fresh_tournament, []. split; reflexivity.
  - split; [exact (Hone 1) | exact (Hpersist 1 [(1, false); (2, true)])].
Defined.

(** C8 (as stated) fails.  On a freshly constructed tournament predictor a
    prediction changes the state: [used] goes from 2 to 0.  And in the
    state reached by two trainings of (1, not taken), a third such training
    leaves the selector counter of bucket 1 at 3, whereas the same training
    preceded by a prediction for address 1 takes it to 2. *)
Lemma prediction_changes_training :
  exists t0 t1 s s1 s2,
    Tournament.new 0 0 0 128 = Ok t0 /\
    BP.getPrediction t0 1 = Ok (true, t1) /\
    Tournament.used t0 = 2 /\ Tournament.used t1 = 0 /\
    do_calls t0 [Train 1 false; Train 1 false] = Ok s /\
    do_calls s [Train 1 false] = Ok s1 /\
    do_calls s [Predict 1; Train 1 false] = Ok s2 /\
    Tournament.PHT s1 !! 1%nat = Some 3 /\
    Tournament.PHT s2 !! 1%nat = Some 2.
Proof.
  do 5 eexists.
  split; [reflexivity|].
  split; [vm_compute; reflexivity|].
  split; [reflexivity|]. split; [reflexivity|].
  split; [vm_compute; reflexivity|].
  split; [vm_compute; reflexivity|].
  split; [vm_compute; reflexivity|].
  split; vm_compute; reflexivity.
Qed.


(** ** The counters of [AtConditionalBranch] *)

Lemma UINT64_incr_small x : 0 <= x < 2 ^ 64 - 1 -> UINT64_incr x = x + 1.
Proof.
  intros Hx. unfold UINT64_incr.
  change (2 ^ 64) with 18446744073709551616 in *.
  apply Z.mod_small. lia.
Qed.

Lemma taken_in_bounds tr : 0 <= taken_in tr <= Z.of_nat (length tr).
Proof.
  induction tr as [|[a b] tr IH]; simpl taken_in; simpl length; [lia|].
  destruct b; simpl outcome_bit; lia.
Qed.

(** The counters as they stand after [n] branches of which [k] were
    taken. *)
Record counted (n k : Z) (s : Counts) : Prop := {
  c_conditional : conditionalBranchesCount s = n;
  c_taken : takenBranchesCount s = k;
  c_notTaken : notTakenBranchesCount s = n - k;
  c_predicted :
    predictedTakenBranchesCount s + predictedNotTakenBranchesCount s = n;
  c_predictedTaken : 0 <= predictedTakenBranchesCount s;
  c_predictedNotTaken : 0 <= predictedNotTakenBranchesCount s;
  c_correct : 0 <= correctPredictionCount s <= n
}.

Lemma count_branch_counted n k w b s :
  0 <= k <= n -> n < 2 ^ 64 - 1 -> counted n k s ->
  counted (n + 1) (k + outcome_bit b) (count_branch w b s) /\
  iCount (count_branch w b s) = iCount s.
Proof.
  intros Hk Hn [H1 H2 H3 H4 H5 H6 H7].
  split; [|reflexivity].
  constructor; unfold count_branch; cbn [conditionalBranchesCount
    takenBranchesCount notTakenBranchesCount predictedTakenBranchesCount
    predictedNotTakenBranchesCount correctPredictionCount].
  - rewrite UINT64_incr_small; lia.
  - destruct b; simpl outcome_bit; [rewrite UINT64_incr_small|]; lia.
  - destruct b; simpl outcome_bit; [|rewrite UINT64_incr_small]; lia.
  - destruct w; rewrite UINT64_incr_small; lia.
  - destruct w; [rewrite UINT64_incr_small|]; lia.
  - destruct w; [|rewrite UINT64_incr_small]; lia.
  - destruct (Bool.eqb w b); [rewrite UINT64_incr_small|]; lia.
Qed.

Lemma simulate_counted {T} `{BP.BranchPredictorInterface T} tr :
  forall (p p' : T) s s' n k,
    0 <= k <= n -> n + Z.of_nat (length tr) < 2 ^ 64 -> counted n k s ->
    simulate p s tr = Ok (p', s') ->
    counted (n + Z.of_nat (length tr)) (k + taken_in tr) s' /\
    iCount s' = iCount s.
Proof.
  induction tr as [|[a b] tr IH]; intros p p' s s' n k Hk Hn Hs Hrun.
  - cbn [simulate] in Hrun. inversion Hrun; subst p' s'.
    cbn [length taken_in]. rewrite !Z.add_0_r. split; [exact Hs | reflexivity].
  - cbn [simulate] in Hrun. unfold AtConditionalBranch_counts in Hrun.
    destruct (AtConditionalBranch p a b) as [[w p1]|e];
      cbn [bind] in Hrun; [|discriminate].
    cbn [length] in Hn. rewrite Nat2Z.inj_succ in Hn.
    destruct (count_branch_counted n k w b s Hk ltac:(lia) Hs) as [Hc Hi].
    assert (Hb : 0 <= outcome_bit b <= 1) by (destruct b; simpl; lia).
    destruct (IH p1 p' _ s' (n + 1) (k + outcome_bit b)
                ltac:(lia) ltac:(lia) Hc Hrun) as [Hc' Hi'].
    cbn [length taken_in]. rewrite Nat2Z.inj_succ.
    replace (n + Z.succ (Z.of_nat (length tr)))
      with (n + 1 + Z.of_nat (length tr)) by lia.
    replace (k + (outcome_bit b + taken_in tr))
      with (k + outcome_bit b + taken_in tr) by lia.
    split; [exact Hc' | congruence].
Qed.

Lemma zero_counts_counted : counted 0 0 zero_counts.
Proof. constructor; simpl; lia. Qed.

(** X1: whatever the predictor, when a run over fewer than [2^64]
    conditional branches returns, the counters started at zero hold: the
    number of branches; the numbers of taken and of not-taken branches of
    the trace; predicted-taken and predicted-not-taken counts that add up to
    the number of branches; a number of correct predictions that does not
    exceed it.  The instruction counter is not touched. *)
Theorem simulate_counts {T} `{BP.BranchPredictorInterface T}
    (p p' : T) (tr : list (Z * bool)) (s' : Counts) :
  Z.of_nat (length tr) < 2 ^ 64 ->
  simulate p zero_counts tr = Ok (p', s') ->
  conditionalBranchesCount s' = Z.of_nat (length tr) /\
  takenBranchesCount s' = taken_in tr /\
  notTakenBranchesCount s' = Z.of_nat (length tr) - taken_in tr /\
  predictedTakenBranchesCount s' + predictedNotTakenBranchesCount s' =
    Z.of_nat (length tr) /\
  0 <= correctPredictionCount s' <= Z.of_nat (length tr) /\
  iCount s' = 0.
Proof.
  intros Hlen Hrun.
  destruct (simulate_counted tr p p' zero_counts s' 0 0
              ltac:(lia) ltac:(lia) zero_counts_counted Hrun) as [[H1 H2 H3 H4 H5 H6 H7] Hi].
  simpl iCount in Hi. repeat split; lia.
Qed.

Lemma simulate_counts_witness :
  conditionalBranchesCount (mkCounts 0 1 2 1 1 2 0) = 2 /\
  takenBranchesCount (mkCounts 0 1 2 1 1 2 0) = taken_in [(4096, false); (4096, true)] /\
  0 <= correctPredictionCount (mkCounts 0 1 2 1 1 2 0) <= 2.
Proof.
  destruct (simulate_counts demo_local
              (Local.mk 128 127 (<[0%nat := 29]> (replicate 128 0))
                 (<[7%nat := 2]> (replicate 128 3)))
              [(4096, false); (4096, true)] (mkCounts 0 1 2 1 1 2 0)
              ltac:(vm_compute; reflexivity) ltac:(vm_compute; reflexivity)) as (H1 & H2 & _ & _ & H5 & _).
  split; [exact H1|]. split; [exact H2 | exact H5].
Defined.

(** ** The always-taken predictor *)

Lemma always_taken_simulate tr :
  forall s n k,
    0 <= k <= n -> n + Z.of_nat (length tr) < 2 ^ 64 -> counted n k s ->
    correctPredictionCount s = k -> predictedNotTakenBranchesCount s = 0 ->
    exists s',
      simulate AlwaysTaken.mk s tr = Ok (AlwaysTaken.mk, s') /\
      counted (n + Z.of_nat (length tr)) (k + taken_in tr) s' /\
      correctPredictionCount s' = k + taken_in tr /\
      predictedNotTakenBranchesCount s' = 0.
Proof.
  induction tr as [|[a b] tr IH]; intros s n k Hk Hn Hs Hc Hp.
  - exists s. cbn [simulate length taken_in]. rewrite !Z.add_0_r. auto.
  - cbn [length] in Hn. rewrite Nat2Z.inj_succ in Hn.
    assert (Hb : 0 <= outcome_bit b <= 1) by (destruct b; simpl; lia).
    destruct (count_branch_counted n k true b s Hk ltac:(lia) Hs) as [Hc1 _].
    destruct (IH (count_branch true b s) (n + 1) (k + outcome_bit b)
                ltac:(lia) ltac:(lia) Hc1) as (s' & Hrun & Hc' & Hcor & Hpn).
    + unfold count_branch. cbn [correctPredictionCount]. rewrite Hc.
      destruct b; cbn [Bool.eqb outcome_bit];
        [rewrite UINT64_incr_small|]; lia.
    + unfold count_branch. cbn [predictedNotTakenBranchesCount]. exact Hp.
    + exists s'. cbn [simulate length taken_in]. rewrite Nat2Z.inj_succ.
      replace (n + Z.succ (Z.of_nat (length tr)))
        with (n + 1 + Z.of_nat (length tr)) by lia.
      replace (k + (outcome_bit b + taken_in tr))
        with (k + outcome_bit b + taken_in tr) by lia.
      split; [exact Hrun|]. auto.
Qed.

(** X2: the always-taken predictor accepts any number of entries and never
    raises; over a run of fewer than [2^64] branches it predicts every
    branch taken, so the correct predictions are exactly the taken branches
    of the trace and no branch is counted as predicted not taken. *)
Theorem always_taken_baseline numberOfEntries (tr : list (Z * bool)) :
  Z.of_nat (length tr) < 2 ^ 64 ->
  exists p s',
    AlwaysTaken.new numberOfEntries = Ok p /\
    simulate p zero_counts tr = Ok (p, s') /\
    correctPredictionCount s' = taken_in tr /\
    takenBranchesCount s' = taken_in tr /\
    predictedTakenBranchesCount s' = Z.of_nat (length tr) /\
    predictedNotTakenBranchesCount s' = 0.
Proof.
  intros Hlen. pose proof (taken_in_bounds tr) as Ht.
  destruct (always_taken_simulate tr zero_counts 0 0 ltac:(lia) ltac:(lia)
              zero_counts_counted eq_refl eq_refl)
    as (s' & Hrun & [H1 H2 H3 H4 H5 H6 H7] & Hc & Hp).
  exists AlwaysTaken.mk, s'.
  split; [reflexivity|]. split; [exact Hrun|].
  repeat split; lia.
Qed.

Lemma always_taken_baseline_witness :
  exists p s',
    AlwaysTaken.new 100 = Ok p /\
    simulate p zero_counts [(1, true); (2, false); (1, true)] = Ok (p, s') /\
    correctPredictionCount s' = 2 /\
    predictedNotTakenBranchesCount s' = 0.
Proof.
  destruct (always_taken_baseline 100 [(1, true); (2, false); (1, true)] eq_refl)
    as (p & s' & Hnew & Hrun & Hc & _ & _ & Hp).
  exists p, s'. split; [exact Hnew|]. split; [exact Hrun|].
  split; [exact Hc | exact Hp].
Defined.

(** ** The instruction counter *)

Lemma div_succ c m :
  0 <= c -> 0 < m ->
  (c + 1) / m = c / m + (if (c + 1) mod m =? 0 then 1 else 0).
Proof.
  intros Hc Hm.
  pose proof (Z.div_mod c m ltac:(lia)) as E.
  pose proof (Z.mod_pos_bound c m Hm) as B.
  destruct (Z.eq_dec (c mod m + 1) m) as [Hfull | Hpart].
  - assert (E1 : c + 1 = (c / m + 1) * m + 0) by lia.
    rewrite (Z.mod_unique (c + 1) m (c / m + 1) 0) by lia.
    rewrite Z.eqb_refl.
    symmetry. apply (Z.div_unique (c + 1) m (c / m + 1) 0); lia.
  - assert (E1 : c + 1 = m * (c / m) + (c mod m + 1)) by lia.
    rewrite <- (Z.mod_unique (c + 1) m (c / m) (c mod m + 1)) by lia.
    destruct (Z.eqb_spec (c mod m + 1) 0); [lia|].
    rewrite Z.add_0_r.
    symmetry. apply (Z.div_unique (c + 1) m (c / m) (c mod m + 1)); lia.
Qed.

Lemma docount_events s :
  0 <= iCount s < 2 ^ 64 - 1 ->
  iCount (fst (docount s)) = iCount s + 1 /\
  count_events is_heartbeat (snd (docount s)) =
    (iCount s + 1) / SIMULATOR_HEARTBEAT_INSTR_NUM -
    iCount s / SIMULATOR_HEARTBEAT_INSTR_NUM /\
  count_events is_detach (snd (docount s)) =
    (if iCount s + 1 =? STOP_INSTR_NUM then 1 else 0) /\
  Forall (fun e => forall c, e = Heartbeat c ->
                   c = iCount s + 1 /\
                   c mod SIMULATOR_HEARTBEAT_INSTR_NUM = 0)
         (snd (docount s)).
Proof.
  intros Hc. unfold docount. rewrite UINT64_incr_small by exact Hc.
  cbn [iCount fst snd]. split; [reflexivity|].
  rewrite (div_succ (iCount s) SIMULATOR_HEARTBEAT_INSTR_NUM)
    by (unfold SIMULATOR_HEARTBEAT_INSTR_NUM; lia).
  destruct (Z.eqb_spec ((iCount s + 1) mod SIMULATOR_HEARTBEAT_INSTR_NUM) 0)
    as [Hm | Hm];
    destruct (iCount s + 1 =? STOP_INSTR_NUM);
    unfold count_events; simpl; (split; [lia|]); (split; [lia|]);
    repeat first [apply List.Forall_nil | apply List.Forall_cons];
    intros c Ec; try discriminate; injection Ec as <-; auto.
Qed.

Lemma count_events_app f out1 out2 :
  count_events f (out1 ++ out2) = count_events f out1 + count_events f out2.
Proof.
  unfold count_events. rewrite List.filter_app, length_app. lia.
Qed.

Lemma docounts_events n :
  forall s,
    0 <= iCount s -> iCount s + Z.of_nat n < 2 ^ 64 ->
    iCount (fst (docounts n s)) = iCount s + Z.of_nat n /\
    count_events is_heartbeat (snd (docounts n s)) =
      (iCount s + Z.of_nat n) / SIMULATOR_HEARTBEAT_INSTR_NUM -
      iCount s / SIMULATOR_HEARTBEAT_INSTR_NUM /\
    count_events is_detach (snd (docounts n s)) =
      (if (iCount s <? STOP_INSTR_NUM) && (STOP_INSTR_NUM <=? iCount s + Z.of_nat n)
       then 1 else 0) /\
    Forall (fun e => forall c, e = Heartbeat c ->
                     iCount s < c <= iCount s + Z.of_nat n /\
                     c mod SIMULATOR_HEARTBEAT_INSTR_NUM = 0)
           (snd (docounts n s)).
Proof.
  induction n as [|n IH]; intros s Hc Hn.
  - cbn [docounts fst snd]. rewrite Z.add_0_r, Z.sub_diag.
    split; [reflexivity|]. split; [reflexivity|].
    split; [|apply List.Forall_nil].
    unfold count_events; simpl.
    destruct (Z.ltb_spec (iCount s) STOP_INSTR_NUM);
      destruct (Z.leb_spec STOP_INSTR_NUM (iCount s)); simpl; lia.
  - rewrite Nat2Z.inj_succ in Hn |- *.
    destruct (docount_events s ltac:(lia)) as (Hi1 & Hh1 & Hd1 & Hf1).
    cbn [docounts].
    destruct (docount s) as [s1 out1].
    cbn [fst snd] in Hi1, Hh1, Hd1, Hf1.
    destruct (IH s1 ltac:(lia) ltac:(lia)) as (Hi & Hh & Hd & Hf).
    destruct (docounts n s1) as [s2 out2].
    cbn [fst snd] in *.
    rewrite !count_events_app, Hh1, Hd1, Hh, Hd, Hi, Hi1.
    replace (iCount s + 1 + Z.of_nat n) with (iCount s + Z.succ (Z.of_nat n)) by lia.
    split; [reflexivity|]. split; [lia|]. split.
    + destruct (Z.eqb_spec (iCount s + 1) STOP_INSTR_NUM);
        destruct (Z.ltb_spec (iCount s + 1) STOP_INSTR_NUM);
        destruct (Z.ltb_spec (iCount s) STOP_INSTR_NUM);
        destruct (Z.leb_spec STOP_INSTR_NUM (iCount s + Z.succ (Z.of_nat n)));
        simpl; lia.
    + apply Forall_app. split.
      * eapply Forall_impl; [exact Hf1|].
        intros e He c Ec. destruct (He c Ec) as [Hr Hmod]. split; [lia | exact Hmod].
      * eapply Forall_impl; [exact Hf|].
        intros e He c Ec. destruct (He c Ec) as [Hr Hmod]. split; [lia | exact Hmod].
Qed.

(** X3: starting from zero, after [n < 2^64] executed instructions the
    instruction counter is [n]; [docount] has printed one heartbeat for
    every full hundred million instructions, each reporting a multiple of a
    hundred million no greater than [n]; and it has called [PIN_Detach]
    once if the billionth instruction was reached and not at all
    otherwise. *)
Theorem docount_run (n : nat) :
  Z.of_nat n < 2 ^ 64 ->
  iCount (fst (docounts n zero_counts)) = Z.of_nat n /\
  count_events is_heartbeat (snd (docounts n zero_counts)) =
    Z.of_nat n / 100000000 /\
  count_events is_detach (snd (docounts n zero_counts)) =
    (if 1000000000 <=? Z.of_nat n then 1 else 0) /\
  Forall (fun e => forall c, e = Heartbeat c ->
                   0 < c <= Z.of_nat n /\ c mod 100000000 = 0)
         (snd (docounts n zero_counts)).
Proof.
  intros Hn.
  destruct (docounts_events n zero_counts ltac:(simpl; lia) ltac:(simpl; lia))
    as (H1 & H2 & H3 & H4).
  cbn [iCount zero_counts] in *. rewrite Z.add_0_l in *.
  split; [exact H1|].
  split; [rewrite H2; unfold SIMULATOR_HEARTBEAT_INSTR_NUM;
          rewrite Z.div_0_l by lia; lia|].
  split; [exact H3 | exact H4].
Qed.

Lemma docount_run_witness :
  iCount (fst (docounts 3 zero_counts)) = 3 /\
  count_events is_heartbeat (snd (docounts 3 zero_counts)) = 0 /\
  count_events is_detach (snd (docounts 3 zero_counts)) = 0.
Proof.
  destruct (docount_run 3 eq_refl) as (H1 & H2 & H3 & _).
  split; [exact H1|]. split; [exact H2 | exact H3].
Defined.

(** ** The predictor selected by [main] *)

Section Simulation.

Context {T : Type} `{BP.BranchPredictorInterface T}.
Variable Inv : T -> Prop.
Hypothesis getPrediction_keeps :
  forall p branchPC, Inv p ->
    exists r p', BP.getPrediction p branchPC = Ok (r, p') /\ Inv p'.
Hypothesis train_keeps :
  forall p branchPC taken, Inv p ->
    exists p', BP.train p branchPC taken = Ok p' /\ Inv p'.



End Simulation.





(** ** Addresses that share their low bits *)

Lemma bucket_of_masked N address :
  valid_size N ->
  Z.land (Z.land address (IndexMask N)) 127 = Z.land address 127.
Proof.
  intros HN. rewrite <- Z.land_assoc. f_equal.
  destruct HN as [-> | [-> | ->]]; reflexivity.
Qed.

Lemma bucket_alias N a a' :
  valid_size N ->
  Z.land a (IndexMask N) = Z.land a' (IndexMask N) ->
  Spec.bucket a = Spec.bucket a'.
Proof.
  intros HN E. unfold Spec.bucket, Spec.bucket_mask.
  rewrite <- (bucket_of_masked N a HN), <- (bucket_of_masked N a' HN), E.
  reflexivity.
Qed.

Lemma Local_alias N l a a' :
  valid_size N -> Local_inv N l ->
  Z.land a 127 = Z.land a' 127 ->
  Local.getPrediction l a = Local.getPrediction l a' /\
  forall outcome, Local.train l a outcome = Local.train l a' outcome.
Proof.
  intros HN Hl E.
  assert (Eb : Spec.bucket a = Spec.bucket a') by exact E.
  split; [|intros outcome].
  - rewrite !(Local_getPrediction_spec N HN l Hl).
    unfold Spec.local_idx. rewrite Eb. reflexivity.
  - rewrite !(Local_train_spec N HN l Hl).
    unfold spec_local_train, Spec.local_idx. rewrite Eb. reflexivity.
Qed.

Lemma Gshare_alias N g a a' :
  valid_size N -> Gshare_inv N g ->
  Z.land a (IndexMask N) = Z.land a' (IndexMask N) ->
  Gshare.getPrediction g a = Gshare.getPrediction g a' /\
  forall outcome, Gshare.train g a outcome = Gshare.train g a' outcome.
Proof.
  intros HN Hg E. split; [|intros outcome].
  - rewrite !(Gshare_getPrediction_spec N HN g Hg).
    unfold Spec.gshare_idx. rewrite E. reflexivity.
  - rewrite !(Gshare_train_spec N HN g Hg).
    unfold spec_gshare_train, Spec.gshare_idx. rewrite E. reflexivity.
Qed.

(** X6: for a supported size and every reachable state, an address reaches
    a predictor only through its low bits.  Two addresses with the same low
    seven bits get the same prediction and the same training from the local
    predictor; two addresses with the same [address & IndexMask] get the
    same prediction and the same training from the gshare predictor and
    from the tournament predictor. *)
Theorem address_aliasing N uninit uninit_l uninit_g :
  valid_size N ->
  (forall l a a', reachable (Local.new uninit N) l ->
     Z.land a 127 = Z.land a' 127 ->
     BP.getPrediction l a = BP.getPrediction l a' /\
     forall outcome, BP.train l a outcome = BP.train l a' outcome) /\
  (forall g a a', reachable (Gshare.new uninit N) g ->
     Z.land a (IndexMask N) = Z.land a' (IndexMask N) ->
     BP.getPrediction g a = BP.getPrediction g a' /\
     forall outcome, BP.train g a outcome = BP.train g a' outcome) /\
  (forall t a a', reachable (Tournament.new uninit uninit_l uninit_g N) t ->
     Z.land a (IndexMask N) = Z.land a' (IndexMask N) ->
     BP.getPrediction t a = BP.getPrediction t a' /\
     forall outcome, BP.train t a outcome = BP.train t a' outcome).
Proof.
  intros HN. split; [|split].
  - intros l a a' Hl E.
    apply (Local_alias N l a a' HN (Local_reachable_inv _ N l HN Hl) E).
  - intros g a a' Hg E.
    apply (Gshare_alias N g a a' HN (Gshare_reachable_inv _ N g HN Hg) E).
  - intros t a a' Ht E.
    pose proof (Tournament_reachable_inv _ _ _ N t HN Ht) as Hinv.
    pose proof (bucket_alias N a a' HN E) as Eb.
    cbn [BP.getPrediction BP.train Tournament_BranchPredictorInterface].
    split; [|intros outcome].
    + rewrite !(Tournament_getPrediction_spec N HN t Hinv).
      unfold gshare_result, local_result, Spec.gshare_idx, Spec.local_idx, Spec.sel.
      rewrite E, Eb. reflexivity.
    + rewrite !(Tournament_train_spec N HN t Hinv).
      unfold spec_tournament_train, spec_gshare_train, spec_local_train,
        gshare_result, local_result, Spec.gshare_idx, Spec.local_idx, Spec.sel.
      rewrite E, Eb. reflexivity.
Qed.

Lemma address_aliasing_witness :
  BP.getPrediction demo_tournament 1 = BP.getPrediction demo_tournament 129 /\
  BP.train demo_tournament 1 true = BP.train demo_tournament 129 true.
Proof.
  destruct (address_aliasing 128 0 0 0 valid_128) as (_ & _ & Ht).
  destruct (Ht demo_tournament 1 129 demo_tournament_reachable eq_refl)
    as [Hp Htr].
  split; [exact Hp | exact (Htr true)].
Defined.

(** ** Zero entries *)

Lemma at_nil index : at_ [] index = Throw out_of_range.
Proof. unfold at_. destruct (index <? 0); reflexivity. Qed.

(** X7: a number of entries of zero is accepted by every constructor, and
    the predictor obtained has empty tables: its first call, whether
    [getPrediction] or [train] and whatever the address, raises
    [out_of_range]. *)
Theorem zero_entries_raise uninit uninit_l uninit_g branchPC taken :
  exists l g t,
    Local.new uninit 0 = Ok l /\
    Gshare.new uninit 0 = Ok g /\
    Tournament.new uninit uninit_l uninit_g 0 = Ok t /\
    BP.getPrediction l branchPC = Throw out_of_range /\
    BP.train l branchPC taken = Throw out_of_range /\
    BP.getPrediction g branchPC = Throw out_of_range /\
    BP.train g branchPC taken = Throw out_of_range /\
    BP.getPrediction t branchPC = Throw out_of_range /\
    BP.train t branchPC taken = Throw out_of_range.
Proof.
  do 3 eexists.
  split; [reflexivity|]. split; [reflexivity|]. split; [reflexivity|].
  cbn [BP.getPrediction BP.train Local_BranchPredictorInterface
       Gshare_BranchPredictorInterface Tournament_BranchPredictorInterface].
  unfold Tournament.train, Tournament.getPrediction.
  cbn [BP.getPrediction BP.train Local_BranchPredictorInterface
       Gshare_BranchPredictorInterface Tournament.gbranch Tournament.PHT].
  unfold Local.getPrediction, Local.train, Gshare.getPrediction, Gshare.train.
  cbn [Local.PHT Gshare.PHT Z.to_nat push_back_loop].
  rewrite !at_nil. destruct taken; repeat split.
Qed.

(** ** The local history registers are shift registers *)

Lemma do_calls_app {T} `{BP.BranchPredictorInterface T} cs1 cs2 :
  forall p : T,
    do_calls p (cs1 ++ cs2) = (do p' <- do_calls p cs1; do_calls p' cs2).
Proof.
  induction cs1 as [|c cs1 IH]; intros p; [reflexivity|].
  cbn [app do_calls]. destruct (do_call p c) as [p1|e]; cbn [bind]; [|reflexivity].
  apply IH.
Qed.

Lemma shift_in_arith N h outcome :
  valid_size N ->
  Spec.shift_in N h outcome = (2 * h + outcome_bit outcome) mod N.
Proof.
  intros HN. destruct (valid_size_ones N HN) as (k & Hk & HM & ->).
  unfold Spec.shift_in. rewrite <- shiftl1_add_bit, HM.
  rewrite Z.land_ones by lia. rewrite Z.shiftl_mul_pow2 by lia.
  f_equal. change (2 ^ 1) with 2. lia.
Qed.

Lemma push_outcomes_congr N outs :
  N <> 0 ->
  forall h h', h mod N = h' mod N ->
    push_outcomes h outs mod N = push_outcomes h' outs mod N.
Proof.
  intros HN. induction outs as [|o outs IH]; intros h h' E; [exact E|].
  cbn [push_outcomes]. apply IH.
  rewrite (Z.add_mod (2 * h)), (Z.add_mod (2 * h')) by exact HN.
  rewrite (Z.mul_mod 2 h), (Z.mul_mod 2 h') by exact HN.
  rewrite E. reflexivity.
Qed.

Lemma Local_trains_history N a outs :
  valid_size N ->
  forall l, Local_inv N l ->
  exists l',
    do_calls l (map (Train a) outs) = Ok l' /\
    Local_inv N l' /\
    Local.LHR l' !!! Z.to_nat (Z.land a 127) =
      push_outcomes (Local.LHR l !!! Z.to_nat (Z.land a 127)) outs mod N /\
    (forall j, j <> Z.to_nat (Z.land a 127) ->
       Local.LHR l' !! j = Local.LHR l !! j).
Proof.
  intros HN. pose proof (valid_size_range N HN) as HR.
  induction outs as [|o outs IH]; intros l Hl.
  - exists l. split; [reflexivity|]. split; [exact Hl|]. split; [|reflexivity].
    cbn [push_outcomes].
    pose proof (local_history_bounded N l Hl a) as Hb.
    unfold history_ok, IndexMask, Spec.bucket, Spec.bucket_mask in Hb.
    rewrite Z.mod_small; lia.
  - pose proof (spec_local_train_inv N HN l Hl a o) as Hl1.
    destruct (IH _ Hl1) as (l' & Hrun & Hl' & Hh & Hf).
    exists l'.
    cbn [map do_calls do_call BP.train Local_BranchPredictorInterface].
    rewrite (Local_train_spec N HN l Hl). cbn [bind].
    split; [exact Hrun|]. split; [exact Hl'|].
    pose proof (bucket_bounds a) as Hbk.
    unfold Spec.bucket, Spec.bucket_mask in Hbk.
    split.
    + rewrite Hh. unfold spec_local_train. cbn [Local.LHR push_outcomes].
      unfold Spec.bucket, Spec.bucket_mask.
      rewrite list_lookup_total_insert_eq
        by (rewrite (l_LHR_length N l Hl); lia).
      rewrite shift_in_arith by exact HN.
      rewrite (local_idx_code N HN l Hl).
      unfold Spec.bucket, Spec.bucket_mask.
      apply push_outcomes_congr; [lia|].
      apply Z.mod_mod. lia.
    + intros j Hj. rewrite (Hf j Hj).
      unfold spec_local_train. cbn [Local.LHR].
      apply list_lookup_insert_ne.
      unfold Spec.bucket, Spec.bucket_mask. congruence.
Qed.

(** X8: for a supported size [N] and every reachable state of the local
    predictor, training one address with a sequence of outcomes shifts them
    into the history register of its bucket, oldest first and modulo [N],
    and leaves the history registers of all other buckets as they were. *)
Theorem local_history_shift_register N uninit l address (outs : list bool) :
  valid_size N ->
  reachable (Local.new uninit N) l ->
  exists l',
    do_calls l (map (Train address) outs) = Ok l' /\
    Local.LHR l' !!! Z.to_nat (Z.land address 127) =
      push_outcomes (Local.LHR l !!! Z.to_nat (Z.land address 127)) outs mod N /\
    (forall j, j <> Z.to_nat (Z.land address 127) ->
       Local.LHR l' !! j = Local.LHR l !! j).
Proof.
  intros HN Hl.
  destruct (Local_trains_history N address outs HN l
              (Local_reachable_inv _ N l HN Hl)) as (l' & H1 & _ & H2 & H3).
  eauto.
Qed.

Lemma local_history_shift_register_witness :
  exists l',
    do_calls demo_local (map (Train 4096) [false; true; true]) = Ok l' /\
    Local.LHR l' !!! 0%nat = push_outcomes 7 [false; true; true] mod 128.
Proof.
  destruct (local_history_shift_register 128 0 demo_local 4096 [false; true; true]
              valid_128 demo_local_reachable) as (l' & H1 & H2 & _).
  exists l'. split; [exact H1 | exact H2].
Defined.

(** ** A branch that always goes the same way *)

Lemma map_replicate {A B} (f : A -> B) n x :
  map f (replicate n x) = replicate n (f x).
Proof. induction n as [|n IH]; simpl; [reflexivity | now rewrite IH]. Qed.

Lemma push_outcomes_constant h (outcome : bool) n :
  push_outcomes h (replicate n outcome) =
  if outcome then (h + 1) * 2 ^ Z.of_nat n - 1 else h * 2 ^ Z.of_nat n.
Proof.
  revert h. induction n as [|n IH]; intros h.
  - simpl. destruct outcome; lia.
  - cbn [replicate push_outcomes]. rewrite IH, Nat2Z.inj_succ.
    rewrite Z.pow_succ_r by lia.
    destruct outcome; simpl outcome_bit; lia.
Qed.

Lemma index_bits_valid N :
  valid_size N -> 1 <= index_bits N <= 12 /\ N = 2 ^ index_bits N.
Proof. intros [-> | [-> | ->]]; vm_compute; repeat split; discriminate. Qed.

(** The history that [n] equal outcomes leave, once [n] reaches the number
    of bits of an index. *)
Lemma push_outcomes_saturates N h (outcome : bool) n :
  valid_size N -> index_bits N <= Z.of_nat n ->
  push_outcomes h (replicate n outcome) mod N = if outcome then N - 1 else 0.
Proof.
  intros HN Hn. destruct (index_bits_valid N HN) as [Hk HNk].
  pose proof (valid_size_range N HN) as HR.
  rewrite push_outcomes_constant.
  assert (E : 2 ^ Z.of_nat n = N * 2 ^ (Z.of_nat n - index_bits N)).
  { rewrite HNk at 1. rewrite <- Z.pow_add_r by lia. f_equal. lia. }
  rewrite E. destruct outcome.
  - symmetry.
    apply (Z.mod_unique _ N ((h + 1) * 2 ^ (Z.of_nat n - index_bits N) - 1)); lia.
  - symmetry.
    apply (Z.mod_unique _ N (h * 2 ^ (Z.of_nat n - index_bits N))); lia.
Qed.

Lemma Local_trains_at_target N a (outcome : bool) m :
  valid_size N ->
  forall l, Local_inv N l ->
    Local.LHR l !!! Z.to_nat (Z.land a 127) = (if outcome then N - 1 else 0) ->
    exists l',
      do_calls l (repeat_train a outcome m) = Ok l' /\
      Local_inv N l' /\
      Local.LHR l' !!! Z.to_nat (Z.land a 127) = (if outcome then N - 1 else 0) /\
      Local.PHT l' !!! Z.to_nat (if outcome then N - 1 else 0) =
        let c := Local.PHT l !!! Z.to_nat (if outcome then N - 1 else 0) in
        if outcome then Z.min 3 (c + Z.of_nat m) else Z.max 0 (c - Z.of_nat m).
Proof.
  intros HN. pose proof (valid_size_range N HN) as HR.
  induction m as [|m IH]; intros l Hl Hh.
  - exists l. split; [reflexivity|]. split; [exact Hl|]. split; [exact Hh|].
    cbv zeta.
    assert (Hi : 0 <= (if outcome then N - 1 else 0)
                   < Z.of_nat (length (Local.PHT l)))
      by (rewrite (l_PHT_length N l Hl); destruct outcome; lia).
    pose proof (counter_bounds _ _ (l_PHT_counters N l Hl) Hi) as Hc.
    destruct outcome; lia.
  - pose proof (spec_local_train_inv N HN l Hl a outcome) as Hl1.
    pose proof (bucket_bounds a) as Hbk.
    unfold Spec.bucket, Spec.bucket_mask in Hbk.
    assert (Hidx : Spec.local_idx N (Local.LHR l) a = if outcome then N - 1 else 0).
    { rewrite (local_idx_code N HN l Hl). exact Hh. }
    assert (Hh1 : Local.LHR (spec_local_train N l a outcome)
                    !!! Z.to_nat (Z.land a 127) = if outcome then N - 1 else 0).
    { unfold spec_local_train. cbn [Local.LHR].
      unfold Spec.bucket, Spec.bucket_mask.
      rewrite list_lookup_total_insert_eq
        by (rewrite (l_LHR_length N l Hl); lia).
      rewrite shift_in_arith, Hidx by exact HN.
      destruct outcome; simpl outcome_bit.
      - symmetry. apply (Z.mod_unique _ N 1); lia.
      - apply Z.mod_0_l. lia. }
    destruct (IH _ Hl1 Hh1) as (l' & Hrun & Hl' & Hh' & Hc').
    exists l'.
    unfold repeat_train in *.
    cbn [replicate do_calls do_call BP.train Local_BranchPredictorInterface].
    rewrite (Local_train_spec N HN l Hl). cbn [bind].
    split; [exact Hrun|]. split; [exact Hl'|]. split; [exact Hh'|].
    rewrite Hc'. cbv zeta.
    unfold spec_local_train at 1 2. cbn [Local.PHT]. rewrite Hidx.
    assert (Hi : 0 <= (if outcome then N - 1 else 0)
                   < Z.of_nat (length (Local.PHT l)))
      by (rewrite (l_PHT_length N l Hl); destruct outcome; lia).
    rewrite bump_lookup_eq by (exact Hi || apply Hl).
    pose proof (counter_bounds _ _ (l_PHT_counters N l Hl) Hi) as Hc.
    rewrite Nat2Z.inj_succ. unfold sat_step.
    destruct outcome; lia.
Qed.

(** X9: for a supported size [N = 2^k] and every reachable state of the
    local predictor, after at least [k + 2] consecutive trainings of one
    address with the same outcome the predictor predicts that outcome for
    the address. *)
Theorem local_learns_constant_branch N uninit l address (outcome : bool) (n : nat) :
  valid_size N ->
  reachable (Local.new uninit N) l ->
  index_bits N + 2 <= Z.of_nat n ->
  exists l',
    do_calls l (repeat_train address outcome n) = Ok l' /\
    BP.getPrediction l' address = Ok (outcome, l').
Proof.
  intros HN Hreach Hn.
  pose proof (Local_reachable_inv _ N l HN Hreach) as Hl.
  destruct (index_bits_valid N HN) as [Hk HNk].
  pose proof (valid_size_range N HN) as HR.
  set (k := Z.to_nat (index_bits N)).
  assert (En : n = (k + (n - k))%nat) by (subst k; lia).
  destruct (Local_trains_history N address (replicate k outcome) HN l Hl)
    as (l1 & Hrun1 & Hl1 & Hh1 & _).
  rewrite push_outcomes_saturates in Hh1 by (exact HN || (subst k; lia)).
  destruct (Local_trains_at_target N address outcome (n - k) HN l1 Hl1 Hh1)
    as (l' & Hrun2 & Hl' & Hh' & Hc').
  exists l'. split.
  - unfold repeat_train in *. rewrite En, replicate_add, do_calls_app.
    rewrite map_replicate in Hrun1. rewrite Hrun1. cbn [bind].
    replace (k + (n - k) - k)%nat with (n - k)%nat by lia. exact Hrun2.
  - cbn [BP.getPrediction Local_BranchPredictorInterface].
    rewrite (Local_getPrediction_spec N HN l' Hl').
    f_equal. f_equal. unfold Spec.read.
    rewrite (local_idx_code N HN l' Hl').
    unfold Spec.bucket, Spec.bucket_mask. rewrite Hh', Hc'. cbv zeta.
    assert (Hi : 0 <= (if outcome then N - 1 else 0)
                   < Z.of_nat (length (Local.PHT l1)))
      by (rewrite (l_PHT_length N l1 Hl1); destruct outcome; lia).
    pose proof (counter_bounds _ _ (l_PHT_counters N l1 Hl1) Hi) as Hc.
    assert (Hm : 2 <= Z.of_nat (n - k)) by (subst k; lia).
    destruct outcome.
    + apply Z.leb_le. lia.
    + apply Z.leb_gt. lia.
Qed.

Lemma local_learns_constant_branch_witness :
  exists l',
    do_calls demo_local (repeat_train 4096 false 9) = Ok l' /\
    BP.getPrediction l' 4096 = Ok (false, l').
Proof.
  apply (local_learns_constant_branch 128 0 demo_local 4096 false 9
           valid_128 demo_local_reachable).
  vm_compute. discriminate.
Defined.

(** ** The choice of the tournament predictor *)

(** X10: for a supported size and every reachable state, the tournament
    predictor answers with the prediction of its gshare sub-predictor when
    the selector counter of the bucket [address & IndexMask] is at least 2,
    and with the prediction of its local sub-predictor otherwise; a
    predictor just constructed answers with gshare. *)
Theorem tournament_prediction_choice N uninit uninit_l uninit_g t address :
  valid_size N ->
  reachable (Tournament.new uninit uninit_l uninit_g N) t ->
  exists gresult lresult r t',
    BP.getPrediction (Tournament.gbranch t) address =
      Ok (gresult, Tournament.gbranch t) /\
    BP.getPrediction (Tournament.lbranch t) address =
      Ok (lresult, Tournament.lbranch t) /\
    BP.getPrediction t address = Ok (r, t') /\
    r = (if 2 <=? Tournament.PHT t !!! Z.to_nat (Z.land address (IndexMask N))
         then gresult else lresult) /\
    (forall t0, Tournament.new uninit uninit_l uninit_g N = Ok t0 ->
       t = t0 -> r = gresult).
Proof.
  intros HN Hreach.
  pose proof (Tournament_reachable_inv _ _ _ N t HN Hreach) as Ht.
  exists (gshare_result N (Tournament.gbranch t) address),
         (local_result N (Tournament.lbranch t) address).
  cbn [BP.getPrediction Tournament_BranchPredictorInterface
       Gshare_BranchPredictorInterface Local_BranchPredictorInterface].
  rewrite (Tournament_getPrediction_spec N HN t Ht).
  rewrite (Gshare_getPrediction_spec N HN _ (t_gbranch N t Ht)).
  rewrite (Local_getPrediction_spec N HN _ (t_lbranch N t Ht)).
  fold (Spec.sel N address).
  fold (gshare_result N (Tournament.gbranch t) address).
  fold (local_result N (Tournament.lbranch t) address).
  destruct (2 <=? Tournament.PHT t !!! Z.to_nat (Spec.sel N address)) eqn:E;
    do 2 eexists; (split; [reflexivity|]); (split; [reflexivity|]);
    (split; [reflexivity|]); (split; [reflexivity|]).
  - reflexivity.
  - intros t0 Hnew ->. exfalso.
    pose proof (sel_bounds N HN address) as Hs.
    rewrite (Tournament_new_in_range uninit uninit_l uninit_g N
               (valid_size_in_range N HN)) in Hnew.
    injection Hnew as <-. cbn [Tournament.PHT] in E.
    rewrite fresh_table in E.
    rewrite lookup_total_replicate_2 in E by lia.
    discriminate.
Qed.

Lemma tournament_prediction_choice_witness :
  exists r t', BP.getPrediction demo_tournament 1 = Ok (r, t') /\ r = true.
Proof.
  destruct (tournament_prediction_choice 128 0 0 0 demo_tournament 1
              valid_128 demo_tournament_reachable)
    as (g & l & r & t' & Hg & _ & Hp & Hr & _).
  exists r, t'. split; [exact Hp|].
  injection Hg as <-. exact Hr.
Defined.

(** X11: for a supported size and every reachable state in which [used]
    holds 0 or 1, when the two sub-predictors disagree on a branch, [train]
    moves the selector counter of the branch's bucket one saturating step
    towards the sub-predictor that was right, whichever of the two [used]
    records, and leaves the other selector counters unchanged. *)
Theorem tournament_disagreement_selector
    N uninit uninit_l uninit_g t address outcome gresult lresult g l :
  valid_size N ->
  reachable (Tournament.new uninit uninit_l uninit_g N) t ->
  Tournament.used t <> 2 ->
  BP.getPrediction (Tournament.gbranch t) address = Ok (gresult, g) ->
  BP.getPrediction (Tournament.lbranch t) address = Ok (lresult, l) ->
  gresult <> lresult ->
  exists t',
    Tournament.train t address outcome = Ok t' /\
    let sel := Z.to_nat (Z.land address (IndexMask N)) in
    let c := Tournament.PHT t !!! sel in
    (forall j, j <> sel -> Tournament.PHT t' !! j = Tournament.PHT t !! j) /\
    Tournament.PHT t' !!! sel =
      if Bool.eqb gresult outcome then Z.min 3 (c + 1) else Z.max 0 (c - 1).
Proof.
  intros HN Hreach Hu Hg Hl Hne.
  pose proof (Tournament_reachable_inv _ _ _ N t HN Hreach) as Ht.
  change (Gshare.getPrediction (Tournament.gbranch t) address = Ok (gresult, g)) in Hg.
  change (Local.getPrediction (Tournament.lbranch t) address = Ok (lresult, l)) in Hl.
  rewrite (Gshare_getPrediction_spec N HN _ (t_gbranch N t Ht)) in Hg.
  rewrite (Local_getPrediction_spec N HN _ (t_lbranch N t Ht)) in Hl.
  injection Hg as Eg _. injection Hl as El _.
  rewrite (Tournament_train_spec N HN t Ht).
  eexists; split; [reflexivity|].
  cbv zeta. unfold spec_tournament_train. cbn [Tournament.PHT].
  unfold gshare_result, local_result. rewrite Eg, El.
  fold (Spec.sel N address).
  pose proof (sel_in_table N HN t Ht address) as Hi.
  pose proof (t_PHT_counters N t Ht) as Hc.
  assert (Hused : (Tournament.used t =? 0) || (Tournament.used t =? 1) = true).
  { destruct (t_used N t Ht) as [-> | [-> | E]]; [reflexivity | reflexivity | tauto]. }
  unfold selector_move. rewrite Hused.
  assert (Ene : Bool.eqb gresult lresult = false)
    by (destruct gresult, lresult; simpl; congruence).
  rewrite Ene. unfold apply_move.
  split; [intros j Hj; apply bump_lookup_ne, Hj|].
  rewrite bump_lookup_eq by assumption. reflexivity.
Qed.

Lemma demo_disagreement_reachable :
  reachable (Tournament.new 0 0 0 128) demo_disagreement.
Proof.
  eexists. exists [Predict 1; Train 1 false; Predict 1; Train 1 false; Predict 1].
  split; [reflexivity | vm_compute; reflexivity].
Qed.

Lemma tournament_disagreement_selector_witness :
  exists t',
    Tournament.train demo_disagreement 1 false = Ok t' /\
    Tournament.PHT demo_disagreement !!! 1%nat = 3 /\
    Tournament.PHT t' !!! 1%nat = 2.
Proof.
  destruct (tournament_disagreement_selector 128 0 0 0 demo_disagreement 1 false
              true false
              (Tournament.gbranch demo_disagreement)
              (Tournament.lbranch demo_disagreement)
              valid_128 demo_disagreement_reachable
              ltac:(vm_compute; discriminate) eq_refl eq_refl
              ltac:(discriminate))
    as (t' & Htrain & _ & Hsel).
  exists t'. split; [exact Htrain|]. split; [reflexivity | exact Hsel].
Defined.

(** X12: for a supported size and every reachable state, when a branch on
    which the two sub-predictors agree is predicted and then trained, as
    [AtConditionalBranch] does, the prediction returned is the common one
    and the selector counter of the branch's bucket stays on its side of the
    threshold 2: the sub-predictor chosen for that bucket does not change. *)
Theorem agreement_keeps_choice
    N uninit uninit_l uninit_g t address outcome r g l :
  valid_size N ->
  reachable (Tournament.new uninit uninit_l uninit_g N) t ->
  BP.getPrediction (Tournament.gbranch t) address = Ok (r, g) ->
  BP.getPrediction (Tournament.lbranch t) address = Ok (r, l) ->
  exists t',
    AtConditionalBranch t address outcome = Ok (r, t') /\
    let sel := Z.to_nat (Z.land address (IndexMask N)) in
    (2 <=? Tournament.PHT t' !!! sel) = (2 <=? Tournament.PHT t !!! sel).
Proof.
  intros HN Hreach Hg Hl.
  pose proof (Tournament_reachable_inv _ _ _ N t HN Hreach) as Ht.
  destruct (sub_predictions N t address r g l HN Ht Hg Hl) as [Eg El].
  pose proof (sel_in_table N HN t Ht address) as Hi.
  pose proof (t_PHT_counters N t Ht) as Hc.
  pose proof (counter_bounds _ _ Hc Hi) as Hb.
  unfold AtConditionalBranch.
  cbn [BP.getPrediction BP.train Tournament_BranchPredictorInterface].
  rewrite (Tournament_getPrediction_spec N HN t Ht), Eg, El.
  cbv zeta. fold (Spec.sel N address).
  destruct (Z.leb_spec 2 (Tournament.PHT t !!! Z.to_nat (Spec.sel N address)))
    as [Hge | Hlt]; cbn [bind].
  - rewrite (Tournament_train_spec N HN) by (apply set_used_inv; auto).
    cbn [bind]. eexists; split; [reflexivity|].
    unfold spec_tournament_train.
    cbn [Tournament.PHT Tournament.set_used Tournament.used
         Tournament.gbranch Tournament.lbranch].
    rewrite Eg, El. unfold selector_move. rewrite Bool.eqb_reflx.
    cbn [Z.eqb orb]. destruct (Bool.eqb r outcome); unfold apply_move.
    + rewrite bump_lookup_eq by assumption. unfold sat_step.
      apply Z.leb_le. lia.
    + apply Z.leb_le. exact Hge.
  - rewrite (Tournament_train_spec N HN) by (apply set_used_inv; auto).
    cbn [bind]. eexists; split; [reflexivity|].
    unfold spec_tournament_train.
    cbn [Tournament.PHT Tournament.set_used Tournament.used
         Tournament.gbranch Tournament.lbranch].
    rewrite Eg, El. unfold selector_move. rewrite Bool.eqb_reflx.
    cbn [Z.eqb Pos.eqb orb]. destruct (Bool.eqb r outcome); unfold apply_move.
    + rewrite bump_lookup_eq by assumption. unfold sat_step.
      apply Z.leb_gt. lia.
    + apply Z.leb_gt. exact Hlt.
Qed.

Lemma agreement_keeps_choice_witness :
  exists t',
    AtConditionalBranch demo_tournament 1 true = Ok (true, t') /\
    (2 <=? Tournament.PHT t' !!! 1%nat) = (2 <=? Tournament.PHT demo_tournament !!! 1%nat).
Proof.
  exact (agreement_keeps_choice 128 0 0 0 demo_tournament 1 true true
           (Tournament.gbranch demo_tournament)
           (Tournament.lbranch demo_tournament)
           valid_128 demo_tournament_reachable eq_refl eq_refl).
Defined.

(** ** What one training touches *)

Lemma bump_frame (v : list Z) index outcome :
  counters_ok v -> 0 <= index < Z.of_nat (length v) ->
  length (Spec.bump v index outcome) = length v /\
  (forall j, j <> Z.to_nat index -> Spec.bump v index outcome !! j = v !! j) /\
  Z.abs (Spec.bump v index outcome !!! Z.to_nat index - v !!! Z.to_nat index) <= 1.
Proof.
  intros Hv Hi. split; [apply bump_length|].
  split; [intros j Hj; apply bump_lookup_ne, Hj|].
  rewrite bump_lookup_eq by assumption.
  pose proof (counter_bounds v index Hv Hi) as Hc.
  unfold sat_step. destruct outcome; lia.
Qed.

(** X13: for a supported size and every reachable state, one [train] of the
    local or of the gshare predictor keeps the length of the table, changes
    no counter other than the one at the index it computed, and changes that
    one by at most one; the same holds for the selector table of the
    tournament predictor at the bucket of the branch, and [train] leaves
    [used] as it was. *)
Theorem train_touches_one_counter N uninit uninit_l uninit_g :
  valid_size N ->
  (forall l branchPC taken, reachable (Local.new uninit N) l ->
     exists l',
       BP.train l branchPC taken = Ok l' /\
       length (Local.PHT l') = length (Local.PHT l) /\
       (forall j, j <> Z.to_nat (local_index l branchPC) ->
          Local.PHT l' !! j = Local.PHT l !! j) /\
       Z.abs (Local.PHT l' !!! Z.to_nat (local_index l branchPC) -
              Local.PHT l !!! Z.to_nat (local_index l branchPC)) <= 1) /\
  (forall g branchPC taken, reachable (Gshare.new uninit N) g ->
     exists g',
       BP.train g branchPC taken = Ok g' /\
       length (Gshare.PHT g') = length (Gshare.PHT g) /\
       (forall j, j <> Z.to_nat (gshare_index g branchPC) ->
          Gshare.PHT g' !! j = Gshare.PHT g !! j) /\
       Z.abs (Gshare.PHT g' !!! Z.to_nat (gshare_index g branchPC) -
              Gshare.PHT g !!! Z.to_nat (gshare_index g branchPC)) <= 1) /\
  (forall t branchPC taken,
     reachable (Tournament.new uninit uninit_l uninit_g N) t ->
     exists t',
       BP.train t branchPC taken = Ok t' /\
       Tournament.used t' = Tournament.used t /\
       length (Tournament.PHT t') = length (Tournament.PHT t) /\
       (forall j, j <> Z.to_nat (selector_index t branchPC) ->
          Tournament.PHT t' !! j = Tournament.PHT t !! j) /\
       Z.abs (Tournament.PHT t' !!! Z.to_nat (selector_index t branchPC) -
              Tournament.PHT t !!! Z.to_nat (selector_index t branchPC)) <= 1).
Proof.
  intros HN. split; [|split].
  - intros l a o Hreach.
    pose proof (Local_reachable_inv _ N l HN Hreach) as Hl.
    cbn [BP.train Local_BranchPredictorInterface].
    rewrite (Local_train_spec N HN l Hl), (local_index_spec N l a HN Hl).
    eexists; split; [reflexivity|].
    unfold spec_local_train. cbn [Local.PHT].
    apply bump_frame; [apply Hl | apply (local_idx_in_table N HN l Hl)].
  - intros g a o Hreach.
    pose proof (Gshare_reachable_inv _ N g HN Hreach) as Hg.
    cbn [BP.train Gshare_BranchPredictorInterface].
    rewrite (Gshare_train_spec N HN g Hg), (gshare_index_spec N g a HN Hg).
    eexists; split; [reflexivity|].
    unfold spec_gshare_train. cbn [Gshare.PHT].
    apply bump_frame; [apply Hg | apply (gshare_idx_in_table N HN g Hg)].
  - intros t a o Hreach.
    pose proof (Tournament_reachable_inv _ _ _ N t HN Hreach) as Ht.
    cbn [BP.train Tournament_BranchPredictorInterface].
    rewrite (Tournament_train_spec N HN t Ht), (selector_index_spec N t a HN Ht).
    eexists; split; [reflexivity|].
    unfold spec_tournament_train. cbn [Tournament.PHT Tournament.used].
    split; [reflexivity|].
    destruct (selector_move _ _ _ _) as [d|]; unfold apply_move.
    + apply bump_frame; [apply Ht | apply (sel_in_table N HN t Ht)].
    + split; [reflexivity|]. split; [reflexivity|].
      rewrite Z.sub_diag. simpl. lia.
Qed.

Lemma train_touches_one_counter_witness :
  exists t',
    BP.train demo_tournament 1 true = Ok t' /\
    Tournament.used t' = Tournament.used demo_tournament /\
    (forall j, j <> 1%nat ->
       Tournament.PHT t' !! j = Tournament.PHT demo_tournament !! j).
Proof.
  destruct (train_touches_one_counter 128 0 0 0 valid_128) as (_ & _ & Ht).
  destruct (Ht demo_tournament 1 true demo_tournament_reachable)
    as (t' & Htrain & Hu & _ & Hf & _).
  exists t'. split; [exact Htrain|]. split; [exact Hu | exact Hf].
Defined.

(** ** The global history *)

Lemma odd_shift_in N h (outcome : bool) :
  valid_size N -> Z.odd (Spec.shift_in N h outcome) = outcome.
Proof.
  intros HN. rewrite shift_in_arith by exact HN.
  destruct (index_bits_valid N HN) as [Hk ->].
  rewrite <- Z.bit0_odd, Z.mod_pow2_bits_low by lia.
  destruct outcome; simpl outcome_bit.
  - apply Z.testbit_odd_0.
  - rewrite Z.add_0_r. apply Z.testbit_even_0.
Qed.

(** X14: for a supported size [N] and every reachable state of the gshare
    predictor, [train] leaves in the global history twice the index it
    used plus the outcome, modulo [N], where the index is the exclusive or
    of [address mod N] and the previous history; so the lowest bit of the
    history is the outcome of the branch trained last. *)
Theorem gshare_history_update N uninit g address (outcome : bool) :
  valid_size N ->
  reachable (Gshare.new uninit N) g ->
  exists g',
    BP.train g address outcome = Ok g' /\
    Gshare.GHR g' =
      (2 * Z.lxor (address mod N) (Gshare.GHR g) + (if outcome then 1 else 0)) mod N /\
    Z.odd (Gshare.GHR g') = outcome.
Proof.
  intros HN Hreach.
  pose proof (Gshare_reachable_inv _ N g HN Hreach) as Hg.
  cbn [BP.train Gshare_BranchPredictorInterface].
  rewrite (Gshare_train_spec N HN g Hg).
  eexists; split; [reflexivity|].
  unfold spec_gshare_train. cbn [Gshare.GHR].
  split; [|apply odd_shift_in, HN].
  rewrite shift_in_arith by exact HN.
  unfold Spec.gshare_idx.
  destruct (valid_size_ones N HN) as (k & Hk & HM & HNk).
  rewrite HM, Z.land_ones, <- HNk by lia. reflexivity.
Qed.

Lemma gshare_history_update_witness :
  exists g',
    BP.train demo_gshare 1 true = Ok g' /\
    Gshare.GHR g' = 7 /\
    Z.odd (Gshare.GHR g') = true.
Proof.
  destruct (gshare_history_update 128 0 demo_gshare 1 true
              valid_128 demo_gshare_reachable) as (g' & Htrain & Hh & Ho).
  exists g'. split; [exact Htrain|]. split; [exact Hh | exact Ho].
Defined.

(** ** The sub-predictors of the tournament predictor *)

Lemma sub_predictors_follow N cs :
  valid_size N ->
  forall t, Tournament_inv N t ->
  exists t',
    do_calls t cs = Ok t' /\
    Tournament_inv N t' /\
    do_calls (Tournament.gbranch t) cs = Ok (Tournament.gbranch t') /\
    do_calls (Tournament.lbranch t) cs = Ok (Tournament.lbranch t').
Proof.
  intros HN. induction cs as [|c cs IH]; intros t Ht.
  - exists t. split; [reflexivity|]. split; [exact Ht|]. split; reflexivity.
  - destruct c as [a | a o];
      cbn [do_calls do_call BP.getPrediction BP.train
           Tournament_BranchPredictorInterface Gshare_BranchPredictorInterface
           Local_BranchPredictorInterface].
    + rewrite (Tournament_getPrediction_spec N HN t Ht).
      rewrite (Gshare_getPrediction_spec N HN _ (t_gbranch N t Ht)).
      rewrite (Local_getPrediction_spec N HN _ (t_lbranch N t Ht)).
      destruct (2 <=? _); cbn [bind].
      * destruct (IH (Tournament.set_used 0 t)) as (t' & H1 & H2 & H3 & H4);
          [apply set_used_inv; auto|].
        exists t'. split; [exact H1|]. split; [exact H2|]. split; [exact H3 | exact H4].
      * destruct (IH (Tournament.set_used 1 t)) as (t' & H1 & H2 & H3 & H4);
          [apply set_used_inv; auto|].
        exists t'. split; [exact H1|]. split; [exact H2|]. split; [exact H3 | exact H4].
    + rewrite (Tournament_train_spec N HN t Ht).
      rewrite (Gshare_train_spec N HN _ (t_gbranch N t Ht)).
      rewrite (Local_train_spec N HN _ (t_lbranch N t Ht)).
      cbn [bind].
      destruct (IH (spec_tournament_train N t a o)) as (t' & H1 & H2 & H3 & H4);
        [apply spec_tournament_train_inv; assumption|].
      exists t'. split; [exact H1|]. split; [exact H2|]. split; [exact H3 | exact H4].
Qed.

(** X15: for a supported size, after any sequence of calls on a constructed
    tournament predictor, its gshare sub-predictor and its local
    sub-predictor are in the very states that a gshare predictor and a
    local predictor constructed on their own reach under the same sequence
    of calls: the selector never influences what the sub-predictors
    learn. *)
Theorem sub_predictors_stand_alone N uninit uninit_l uninit_g (cs : list call) :
  valid_size N ->
  exists t0 g0 l0 t,
    Tournament.new uninit uninit_l uninit_g N = Ok t0 /\
    Gshare.new uninit_g N = Ok g0 /\
    Local.new uninit_l N = Ok l0 /\
    do_calls t0 cs = Ok t /\
    do_calls g0 cs = Ok (Tournament.gbranch t) /\
    do_calls l0 cs = Ok (Tournament.lbranch t).
Proof.
  intros HN. pose proof (valid_size_in_range N HN) as Hr.
  destruct (sub_predictors_follow N cs HN _
              (Tournament_new_inv uninit uninit_l uninit_g N _ HN
                 (Tournament_new_in_range uninit uninit_l uninit_g N Hr)))
    as (t & H1 & _ & H2 & H3).
  do 3 eexists. exists t.
  split; [apply (Tournament_new_in_range uninit uninit_l uninit_g N Hr)|].
  split; [apply (Gshare_new_in_range uninit_g N Hr)|].
  split; [apply (Local_new_in_range uninit_l N Hr)|].
  split; [exact H1|]. split; [exact H2 | exact H3].
Qed.

Lemma sub_predictors_stand_alone_witness :
  exists t0 g0 l0 t,
    Tournament.new 0 0 0 128 = Ok t0 /\
    Gshare.new 0 128 = Ok g0 /\
    Local.new 0 128 = Ok l0 /\
    do_calls t0 demo_calls = Ok t /\
    do_calls g0 demo_calls = Ok (Tournament.gbranch t) /\
    do_calls l0 demo_calls = Ok (Tournament.lbranch t).
Proof.
  exact (sub_predictors_stand_alone 128 0 0 0 demo_calls valid_128).
Defined.

(** ** Hysteresis of the counters *)

(** X16: for a supported size and every reachable state of the local or of
    the gshare predictor, when the counter at the index computed for a
    branch is saturated (3, or 0), one training against it (not taken, or
    taken) moves it by one and does not change the direction that counter
    predicts: it takes two such trainings of the same counter to flip it. *)
Theorem saturated_counter_hysteresis N uninit :
  valid_size N ->
  (forall l branchPC (taken : bool), reachable (Local.new uninit N) l ->
     Local.PHT l !!! Z.to_nat (local_index l branchPC) = (if taken then 0 else 3) ->
     exists l',
       BP.train l branchPC taken = Ok l' /\
       Local.PHT l' !!! Z.to_nat (local_index l branchPC) = (if taken then 1 else 2) /\
       (2 <=? Local.PHT l' !!! Z.to_nat (local_index l branchPC)) =
       (2 <=? Local.PHT l !!! Z.to_nat (local_index l branchPC))) /\
  (forall g branchPC (taken : bool), reachable (Gshare.new uninit N) g ->
     Gshare.PHT g !!! Z.to_nat (gshare_index g branchPC) = (if taken then 0 else 3) ->
     exists g',
       BP.train g branchPC taken = Ok g' /\
       Gshare.PHT g' !!! Z.to_nat (gshare_index g branchPC) = (if taken then 1 else 2) /\
       (2 <=? Gshare.PHT g' !!! Z.to_nat (gshare_index g branchPC)) =
       (2 <=? Gshare.PHT g !!! Z.to_nat (gshare_index g branchPC))).
Proof.
  intros HN. split.
  - intros l a o Hreach E.
    pose proof (Local_reachable_inv _ N l HN Hreach) as Hl.
    cbn [BP.train Local_BranchPredictorInterface].
    rewrite (Local_train_spec N HN l Hl).
    rewrite (local_index_spec N l a HN Hl) in *.
    eexists; split; [reflexivity|].
    unfold spec_local_train. cbn [Local.PHT].
    rewrite bump_lookup_eq
      by (apply Hl || apply (local_idx_in_table N HN l Hl)).
    rewrite E. destruct o; split; reflexivity.
  - intros g a o Hreach E.
    pose proof (Gshare_reachable_inv _ N g HN Hreach) as Hg.
    cbn [BP.train Gshare_BranchPredictorInterface].
    rewrite (Gshare_train_spec N HN g Hg).
    rewrite (gshare_index_spec N g a HN Hg) in *.
    eexists; split; [reflexivity|].
    unfold spec_gshare_train. cbn [Gshare.PHT].
    rewrite bump_lookup_eq
      by (apply Hg || apply (gshare_idx_in_table N HN g Hg)).
    rewrite E. destruct o; split; reflexivity.
Qed.

Lemma saturated_counter_hysteresis_witness :
  exists l',
    BP.train demo_local 4096 false = Ok l' /\
    Local.PHT l' !!! 7%nat = 2 /\
    (2 <=? Local.PHT l' !!! 7%nat) = (2 <=? Local.PHT demo_local !!! 7%nat).
Proof.
  destruct (saturated_counter_hysteresis 128 0 valid_128) as [Hl _].
  exact (Hl demo_local 4096 false demo_local_reachable eq_refl).
Defined.
